(** * donutpluginutils: the download-and-log pipeline

    A shallow embedding of the parts of [app.py] and [modrinth.py] that
    carry contractual behaviour: dependency expansion in
    [DownloaderApp.start_download], the streamed transfer [download_file],
    the batch worker, the run-log recorder [save_log], and the Modrinth
    client.  Dicts are [gmap]s, Python sets are [gset]s, exceptions are an
    explicit result type, callbacks are an event trace. *)

From stdpp Require Import gmap strings list pretty.
From Stdlib Require Import ZArith Ascii.

Local Open Scope Z_scope.
Set Warnings "-clear-no-such-hyp".

(** ** Catalog items

    An entry of [plugins.json]: a dict with the keys ["name"] and ["url"]. *)

Record item := Item { name : string; url : string }.

Global Instance item_eq_dec : EqDecision item.
Proof. solve_decision. Defined.

Definition names (l : list item) : list string := name <$> l.

(** ** Dependency expansion ([start_download], the ["dependencies"] branch) *)

Section expander.

(** [self.download_items] and the dict read by [load_dependencies]. *)
Variable download_items : list item.
Variable deps_map : gmap string (list string).

(** [find_item_by_name]: the first catalog entry carrying the name. *)
Fixpoint find_in (l : list item) (n : string) : option item :=
  match l with
  | [] => None
  | d :: l' => if decide (name d = n) then Some d else find_in l' n
  end.

Definition find_item_by_name (n : string) : option item :=
  find_in download_items n.

(** [[item for item in self.download_items if item["name"] in
    self.selected_items]]. *)
Definition items_to_download (selected_items : list string) : list item :=
  filter (λ it, name it ∈ selected_items) download_items.

(** The local variables of the traversal.  [lookups] and [popped] are
    ghost traces: the arguments of the calls of [find_item_by_name] and
    the values of [current_name], both in execution order. *)
Record state := State {
  to_process : list string;
  processed : gset string;
  extra_items : list item;
  lookups : list string;
  popped : list string
}.

(** Body of [for dep_name in deps_map[current_name]]. *)
Definition visit_dep (st : state) (dep_name : string) : state :=
  if decide (dep_name ∈ processed st) then st
  else
    match find_item_by_name dep_name with
    | Some dep_item =>
        {| to_process := to_process st ++ [dep_name];
           processed := {[dep_name]} ∪ processed st;
           extra_items := extra_items st ++ [dep_item];
           lookups := lookups st ++ [dep_name];
           popped := popped st |}
    | None =>
        {| to_process := to_process st;
           processed := processed st;
           extra_items := extra_items st;
           lookups := lookups st ++ [dep_name];
           popped := popped st |}
    end.

(** [current_name = to_process.pop(0)] on a queue [current_name :: rest]. *)
Definition pop (st : state) (current_name : string) (rest : list string)
  : state :=
  {| to_process := rest;
     processed := processed st;
     extra_items := extra_items st;
     lookups := lookups st;
     popped := popped st ++ [current_name] |}.

(** One turn of [while to_process]. *)
Definition iteration (st : state) (current_name : string)
    (rest : list string) : state :=
  match deps_map !! current_name with
  | Some ds => foldl visit_dep (pop st current_name rest) ds
  | None => pop st current_name rest
  end.

(** The [while] loop; [None] only when the fuel runs out first. *)
Fixpoint run (fuel : nat) (st : state) : option state :=
  match to_process st with
  | [] => Some st
  | current_name :: rest =>
      match fuel with
      | O => None
      | S fuel' => run fuel' (iteration st current_name rest)
      end
  end.

(** State on entry to the loop: [to_process] holds the requested names
    and [processed = set(to_process)]. *)
Definition init (items : list item) : state :=
  {| to_process := names items;
     processed := list_to_set (names items);
     extra_items := [];
     lookups := [];
     popped := [] |}.

(** The variant of the loop: queue length plus the number of catalog
    names not yet in [processed]. *)
Definition catalog_names : gset string := list_to_set (names download_items).

Definition variant (st : state) : nat :=
  (length (to_process st) + size (catalog_names ∖ processed st))%nat.

Definition traverse (items : list item) : option state :=
  run (variant (init items)) (init items).

(** [items_to_download.extend(extra_items)] when [extra_items] is not
    empty. *)
Definition extend_with (items extra : list item) : list item :=
  match extra with
  | [] => items
  | _ => items ++ extra
  end.

Definition resolve_dependencies (items : list item) : option (list item) :=
  st ← traverse items; Some (extend_with items (extra_items st)).

(** Selection followed by expansion, as [start_download] chains them. *)
Definition expand (selected_items : list string) : option (list item) :=
  resolve_dependencies (items_to_download selected_items).

End expander.

(** ** The transfer engine ([download_file]) *)

(** An exception object caught by [except Exception]: its class and the
    text [str(exc)] that an f-string renders. *)
Record exn := Exn { exn_class : string; exn_msg : string }.

(** What the callbacks [log_cb], [status_cb] and [ready_cb] receive, in call
    order. *)
Inductive event :=
  | Log (line : string)
  | Status (text : string)
  | Ready (text : string).

(** One element of [response.iter_content]: its length, and whether
    [file_handle.write] raises on it. *)
Record chunk := Chunk { chunk_len : N; chunk_write : option exn }.

(** The response of [requests.get]: what [raise_for_status] does, what
    [int(response.headers.get("Content-Length", "0"))] evaluates to (or
    raises), what [open(destination, "wb")] does, the chunks the body
    iterator yields and how the iteration ends. *)
Record response := Response {
  raise_for_status : option exn;
  content_length : exn + Z;
  open_destination : option exn;
  body : list chunk;
  body_end : option exn
}.

Inductive get_result :=
  | GetRaises (e : exn)
  | GetReturns (r : response).

Inductive outcome :=
  | Returned
  | Raised (e : exn).

(** Loop variables of the chunk loop, the events emitted so far, and a ghost
    list of the pairs (threshold, downloaded) at which a percentage line was
    emitted. *)
Record progress := Progress {
  downloaded : Z;
  next_percent_log : Z;
  trace : list event;
  emitted : list (Z * Z)
}.

Definition chunk_size : Z := 8192.

Section transfer.

(** [pathlib]: [Path.name] and [Path.suffix] of a path given as text. *)
Variable path_name : string → string.
Variable path_suffix : string → string.

(** Binary floating point is kept abstract: [percent_ge d t n] is the value
    of [percent >= next_percent_log] for [percent = d / t * 100], and
    [fmt_percent d t] the text of [f"{percent:.1f}"]. *)
Variable percent_ge : Z → Z → Z → bool.
Variable fmt_percent : Z → Z → string.

(** Body of [for chunk in response.iter_content(...)]: the loop state
    afterwards, and the exception that leaves the loop, if any. *)
Definition chunk_step (total : Z) (st : progress) (c : chunk)
  : progress * option exn :=
  if decide (chunk_len c = 0%N) then (st, None)
  else
    match chunk_write c with
    | Some e => (st, Some e)
    | None =>
        let d := downloaded st + Z.of_N (chunk_len c) in
        if decide (total ≠ 0) then
          if percent_ge d total (next_percent_log st) then
            let text := "Downloading... " +:+ fmt_percent d total +:+ "%" in
            ({| downloaded := d;
                next_percent_log := next_percent_log st + 5;
                trace := trace st ++ [Log text; Status text];
                emitted := emitted st ++ [(next_percent_log st, d)] |},
             None)
          else
            ({| downloaded := d;
                next_percent_log := next_percent_log st;
                trace := trace st;
                emitted := emitted st |}, None)
        else if decide (d `mod` (256 * 1024) < chunk_size) then
          ({| downloaded := d;
              next_percent_log := next_percent_log st;
              trace := trace st ++
                [Status ("Downloading... " +:+ pretty (d `div` 1024) +:+ " KB")];
              emitted := emitted st |}, None)
        else
          ({| downloaded := d;
              next_percent_log := next_percent_log st;
              trace := trace st;
              emitted := emitted st |}, None)
    end.

Fixpoint stream (total : Z) (st : progress) (cs : list chunk)
    (fin : option exn) : progress * option exn :=
  match cs with
  | [] => (st, fin)
  | c :: cs' =>
      match chunk_step total st c with
      | (st', None) => stream total st' cs' fin
      | (st', Some e) => (st', Some e)
      end
  end.

(** The statements after [response.raise_for_status()] inside the
    [with requests.get(...)] block. *)
Definition receive (destination : string) (r : response) (t : list event)
  : progress * option exn :=
  let st0 := {| downloaded := 0; next_percent_log := 5;
                trace := t; emitted := [] |} in
  match content_length r with
  | inl e => (st0, Some e)
  | inr total =>
      match open_destination r with
      | Some e => (st0, Some e)
      | None =>
          match stream total st0 (body r) (body_end r) with
          | (st, Some e) => (st, Some e)
          | (st, None) =>
              ({| downloaded := downloaded st;
                  next_percent_log := next_percent_log st;
                  trace := trace st ++ [Log ("Saved: " +:+ destination)];
                  emitted := emitted st |}, None)
          end
      end
  end.

(** The [try] block. *)
Definition attempt (destination : string) (g : get_result)
  : progress * option exn :=
  let suffix := path_suffix destination in
  let t0 :=
    [ Log ("Starting download: " +:+ path_name destination);
      Log ("Target path: " +:+ destination);
      Log ("Extension: " +:+
           (if decide (suffix = EmptyString) then "none" else suffix));
      Status ("Retrieving: " +:+ path_name destination) ] in
  let st0 := {| downloaded := 0; next_percent_log := 5;
                trace := t0; emitted := [] |} in
  match g with
  | GetRaises e => (st0, Some e)
  | GetReturns r =>
      match raise_for_status r with
      | Some e => (st0, Some e)
      | None =>
          match receive destination r t0 with
          | (st, Some e) => (st, Some e)
          | (st, None) =>
              ({| downloaded := downloaded st;
                  next_percent_log := next_percent_log st;
                  trace := trace st ++
                    [ Status ("Finished: " +:+ path_name destination);
                      Ready "Ready" ];
                  emitted := emitted st |}, None)
          end
      end
  end.

(** [try: ... except Exception as exc: ...; raise exc]. *)
Definition on_exception (e : exn) : list event :=
  [ Log ("Failed: " +:+ exn_msg e);
    Status ("Error: " +:+ exn_msg e);
    Ready "Ready" ].

Definition download_file (destination : string) (g : get_result)
  : list event * outcome :=
  match attempt destination g with
  | (st, None) => (trace st, Returned)
  | (st, Some e) => (trace st ++ on_exception e, Raised e)
  end.

(** Ghost view of the same run: the (threshold, downloaded) pairs of the
    percentage lines. *)
Definition progress_lines (destination : string) (g : get_result)
  : list (Z * Z) :=
  emitted (attempt destination g).1.

End transfer.

(** ** The run-log recorder and the batch worker ([DownloaderApp]) *)

(** The part of the application object the worker touches: [self.log_lines],
    the directory [LOGS_DIR] ([None] while it does not exist, otherwise its
    files by name), and the calls received by the three sinks [self.log],
    [self.set_status] and [self.set_ready], in order. *)
Record app := App {
  log_lines : list string;
  logs_dir : option (gmap string string);
  sinks : list event
}.

(** [self.log(message)]. *)
Definition log (a : app) (message : string) : app :=
  {| log_lines := log_lines a ++ [message];
     logs_dir := logs_dir a;
     sinks := sinks a ++ [Log message] |}.

Definition set_status (a : app) (message : string) : app :=
  {| log_lines := log_lines a; logs_dir := logs_dir a;
     sinks := sinks a ++ [Status message] |}.

Definition set_ready (a : app) (message : string) : app :=
  {| log_lines := log_lines a; logs_dir := logs_dir a;
     sinks := sinks a ++ [Ready message] |}.

(** [self.reset_log()]. *)
Definition reset_log (a : app) : app :=
  {| log_lines := []; logs_dir := logs_dir a; sinks := sinks a |}.

(** [download_file] is handed [self.log], [self.set_status] and
    [self.set_ready] as its callbacks. *)
Definition deliver (a : app) (ev : event) : app :=
  match ev with
  | Log m => log a m
  | Status m => set_status a m
  | Ready m => set_ready a m
  end.

Definition newline : string := String "010"%char EmptyString.

(** ["\n".join(lines)]. *)
Fixpoint join_lines (lines : list string) : string :=
  match lines with
  | [] => EmptyString
  | [l] => l
  | l :: rest => l +:+ newline +:+ join_lines rest
  end.

(** [self.get_log_text()]. *)
Definition get_log_text (a : app) : string :=
  join_lines (log_lines a) +:+
  (match log_lines a with [] => EmptyString | _ => newline end).

(** [LOGS_DIR / f"{base}{n}.txt"], by its name. *)
Definition candidate (base : string) (n : nat) : string :=
  base +:+ pretty n +:+ ".txt".

Definition base_name (success : bool) : string :=
  if success then "successlog" else "logerror".

(** [candidate.exists()]. *)
Definition file_exists (dir : option (gmap string string)) (f : string)
  : bool :=
  match dir with
  | Some files => bool_decide (f ∈ dom files)
  | None => false
  end.

(** The [while True] scan of [save_log], entered with the counter at [n];
    [None] only when the fuel runs out first. *)
Fixpoint scan (dir : option (gmap string string)) (base : string)
    (fuel n : nat) : option nat :=
  if file_exists dir (candidate base n) then
    match fuel with
    | O => None
    | S fuel' => scan dir base fuel' (S n)
    end
  else Some n.

(** Number of turns after which the scan has certainly stopped. *)
Definition scan_fuel (dir : option (gmap string string)) : nat :=
  match dir with
  | Some files => size (dom files)
  | None => O
  end.

(** How [write_text] fails in an existing directory: the exception, and what
    the call leaves under the file's name: nothing when the file could not
    be opened, and the text written before the failure (often none, an
    empty file) when the file was opened and the write itself failed. *)
Record write_failure := WriteFailure {
  failure_exn : exn;
  failure_left : option string
}.

Section recorder.

(** Outcomes of the file system calls: the [OSError] of
    [path.mkdir(parents=True, exist_ok=True)] when [LOGS_DIR] is absent
    and cannot be created, the failure of [write_text] into an existing
    directory, and the exception it raises when the directory is
    missing. *)
Variable mkdir_error : option exn.
Variable write_error : option write_failure.
Variable missing_dir_error : exn.

(** [ensure_dir(LOGS_DIR)]; its boolean result is dropped by [save_log]. *)
Definition ensure_dir (dir : option (gmap string string))
  : option (gmap string string) :=
  match dir with
  | Some files => Some files
  | None => match mkdir_error with Some _ => None | None => Some ∅ end
  end.

(** [candidate.write_text(content, encoding="utf-8")]: the directory
    afterwards, or the exception raised together with the directory it
    leaves. *)
Definition write_text (dir : option (gmap string string))
    (f content : string)
  : exn * option (gmap string string) + gmap string string :=
  match dir with
  | None => inl (missing_dir_error, None)
  | Some files =>
      match write_error with
      | Some w =>
          inl (failure_exn w,
               Some (match failure_left w with
                     | Some partial => <[f := partial]> files
                     | None => files
                     end))
      | None => inr (<[f := content]> files)
      end
  end.

(** [self.save_log(success)]: the returned name and the application
    afterwards. *)
Definition save_log (a : app) (success : bool) : option (string * app) :=
  let base := base_name success in
  let dir := ensure_dir (logs_dir a) in
  n ← scan dir base (scan_fuel dir) 1;
  let content := get_log_text a in
  match write_text dir (candidate base n) content with
  | inr files =>
      Some (candidate base n,
            {| log_lines := log_lines a; logs_dir := Some files;
               sinks := sinks a |})
  | inl (e, remains) =>
      Some (candidate base n,
            log {| log_lines := log_lines a; logs_dir := remains;
                   sinks := sinks a |}
                ("Failed to save log: " +:+ exn_msg e))
  end.

End recorder.

(** A transfer raised. *)
Definition raised (r : list event * outcome) : bool :=
  match r.2 with
  | Raised _ => true
  | Returned => false
  end.

(** What a run of [worker] leaves behind; [attempted] is a ghost list of the
    items handed to [download_file], in call order. *)
Record run_result := RunResult {
  final : app;
  overall_success : bool;
  attempted : list item;
  log_name : string
}.

Section worker.

Variable path_name : string → string.
Variable path_suffix : string → string.
Variable percent_ge : Z → Z → Z → bool.
Variable fmt_percent : Z → Z → string.
Variable mkdir_error : option exn.
Variable write_error : option write_failure.
Variable missing_dir_error : exn.

(** [self.download_dir / filename], as text. *)
Variable path_join : string → string → string.

(** What [requests.get] does for the [idx]-th item of the batch. *)
Variable network : nat → item → get_result.

Variable download_dir : string.

(** [Path(selected["url"]).name or "download.bin"]. *)
Definition filename_of (selected : item) : string :=
  let n := path_name (url selected) in
  if decide (n = EmptyString) then "download.bin" else n.

(** The transfer of the [idx]-th item, as the worker calls it. *)
Definition transfer (idx : nat) (selected : item) : list event * outcome :=
  download_file path_name path_suffix percent_ge fmt_percent
    (path_join download_dir (filename_of selected)) (network idx selected).

(** Body of [for idx, selected in enumerate(items_to_download, start=1)]
    on the loop state (application, [overall_success], attempted items). *)
Definition batch_step (count : nat) (acc : app * bool * list item)
    (idx : nat) (selected : item) : app * bool * list item :=
  let '(a, ok, seen) := acc in
  let a1 :=
    set_status a ("Starting download (" +:+ pretty idx +:+ "/" +:+
                  pretty count +:+ "): " +:+ filename_of selected) in
  match transfer idx selected with
  | (evs, Returned) => (foldl deliver a1 evs, ok, seen ++ [selected])
  | (evs, Raised _) => (foldl deliver a1 evs, false, seen ++ [selected])
  end.

Fixpoint batch_loop (count : nat) (acc : app * bool * list item)
    (idx : nat) (items : list item) : app * bool * list item :=
  match items with
  | [] => acc
  | selected :: rest =>
      batch_loop count (batch_step count acc idx selected) (S idx) rest
  end.

(** The sink calls of the loop for the items from position [idx] on, and
    whether none of their transfers raises. *)
Fixpoint batch_events (count idx : nat) (items : list item) : list event :=
  match items with
  | [] => []
  | selected :: rest =>
      Status ("Starting download (" +:+ pretty idx +:+ "/" +:+
              pretty count +:+ "): " +:+ filename_of selected)
      :: (transfer idx selected).1 ++ batch_events count (S idx) rest
  end.

Fixpoint batch_ok (idx : nat) (items : list item) : bool :=
  match items with
  | [] => true
  | selected :: rest =>
      negb (raised (transfer idx selected)) && batch_ok (S idx) rest
  end.

(** The nested function [worker] of [start_download]. *)
Definition worker (a : app) (items : list item) : option run_result :=
  let a1 := reset_log (set_ready a "Busy") in
  let a2 := log a1 "--- Batch Download Started ---" in
  let a3 := log a2 ("Target Directory: " +:+ download_dir) in
  let '(a4, ok, seen) :=
    batch_loop (length items) (a3, true, []) 1%nat items in
  let a5 := set_status (set_ready a4 "Ready") "Finished all downloads" in
  let a6 := log a5 "--- Batch Download Finished ---" in
  '(nm, a7) ← save_log mkdir_error write_error missing_dir_error a6 ok;
  Some {| final := log a7 ("Log saved to logs/" +:+ nm);
          overall_success := ok;
          attempted := seen;
          log_name := nm |}.

End worker.

(** ** The Modrinth client ([modrinth.py]) *)

(** Values produced by [resp.json()]; [JNull] is Python's [None], and a
    dict is listed by its items (distinct keys). *)
#[warnings="-register-all"]
Inductive json :=
  | JNull
  | JBool (b : bool)
  | JNum (z : Z)
  | JStr (s : string)
  | JArr (l : list json)
  | JObj (fields : list (string * json)).

(** What a call of a method does: return a value or raise. *)
Inductive result :=
  | Ret (v : json)
  | Err (e : exn).

(** What [self.session.get] does: raise, or answer with a response whose
    [raise_for_status()] raises or not and whose [json()] yields a value or
    raises. *)
Inductive reply :=
  | Fails (e : exn)
  | Answers (status : option exn) (payload : exn + json).

(** Python truth value of [v], as [if not versions] tests it. *)
Definition truthy (v : json) : bool :=
  match v with
  | JNull => false
  | JBool b => b
  | JNum z => negb (z =? 0)
  | JStr s => negb (bool_decide (s = EmptyString))
  | JArr l => negb (bool_decide (l = []))
  | JObj fields => negb (bool_decide (fields = []))
  end.

(** Texts are held as their UTF-8 bytes.  Number of bytes of the character
    whose first byte is [c]. *)
Definition utf8_width (c : ascii) : nat :=
  let n := nat_of_ascii c in
  if decide (n < 192)%nat then 1%nat
  else if decide (n < 224)%nat then 2%nat
  else if decide (n < 240)%nat then 3%nat
  else 4%nat.

(** The first [n] bytes of a text, and the rest. *)
Fixpoint take_bytes (n : nat) (s : string) : string * string :=
  match n, s with
  | S n', String c rest =>
      let '(h, t) := take_bytes n' rest in (String c h, t)
  | _, _ => (EmptyString, s)
  end.

(** The characters of a text, as Python iterates over a [str]. *)
Fixpoint characters (fuel : nat) (s : string) : list string :=
  match fuel, s with
  | S fuel', String c _ =>
      let '(h, t) := take_bytes (utf8_width c) s in h :: characters fuel' t
  | _, _ => []
  end.

Definition py_chars (s : string) : list string :=
  characters (String.length s) s.

(** [type(v).__name__]. *)
Definition py_type_name (v : json) : string :=
  match v with
  | JNull => "NoneType"
  | JBool _ => "bool"
  | JNum _ => "int"
  | JStr _ => "str"
  | JArr _ => "list"
  | JObj _ => "dict"
  end.

(** The [AttributeError] of [v.get] on a value that is not a dict. *)
Definition no_get (v : json) : exn :=
  Exn "AttributeError"
      ("'" +:+ py_type_name v +:+ "' object has no attribute 'get'").

(** [v[0]]. *)
Definition subscript_0 (v : json) : result :=
  match v with
  | JArr (x :: _) => Ret x
  | JArr [] => Err (Exn "IndexError" "list index out of range")
  | JStr (String c rest) =>
      Ret (JStr (take_bytes (utf8_width c) (String c rest)).1)
  | JStr EmptyString => Err (Exn "IndexError" "string index out of range")
  | JObj _ => Err (Exn "KeyError" "0")
  | JNum _ => Err (Exn "TypeError" "'int' object is not subscriptable")
  | JBool _ => Err (Exn "TypeError" "'bool' object is not subscriptable")
  | JNull => Err (Exn "TypeError" "'NoneType' object is not subscriptable")
  end.

Fixpoint assoc (fields : list (string * json)) (key : string) : option json :=
  match fields with
  | [] => None
  | (k, v) :: rest => if decide (k = key) then Some v else assoc rest key
  end.

(** [data.get(key, [])]: only a dict has the method. *)
Definition get_or_empty (data : json) (key : string) : exn + json :=
  match data with
  | JObj fields => inr (default (JArr []) (assoc fields key))
  | _ => inl (no_get data)
  end.

(** [s.replace(single_quote, double_quote)]. *)
Definition single_quote : ascii := "039"%char.
Definition double_quote : ascii := "034"%char.

Fixpoint replace_quotes (s : string) : string :=
  match s with
  | EmptyString => EmptyString
  | String c rest =>
      String (if decide (c = single_quote) then double_quote else c)
             (replace_quotes rest)
  end.

Definition BASE_URL : string := "https://api.modrinth.com/v2".

Section modrinth.

(** The network, as a function of the URL and the query parameters. *)
Variable session_get : string → list (string * string) → reply.

(** Python's [str] of a list of strings. *)
Variable str_list : list string → string.

(** [resp = self.session.get(...); resp.raise_for_status(); resp.json()]
    inside a [try]: the value, or the exception that leaves the block. *)
Definition fetch (u : string) (params : list (string * string))
  : exn + json :=
  match session_get u params with
  | Fails e => inl e
  | Answers (Some e) _ => inl e
  | Answers None payload => payload
  end.

(** [try: return <body> except Exception: return <fallback>]. *)
Definition try_return (body : exn + json) (fallback : json) : result :=
  match body with
  | inr v => Ret v
  | inl _ => Ret fallback
  end.

Definition get_project (slug_or_id : string) : result :=
  try_return (fetch (BASE_URL +:+ "/project/" +:+ slug_or_id) []) JNull.

(** [if loaders: params["loaders"] = ...]. *)
Definition param (key : string) (values : option (list string))
  : list (string * string) :=
  match values with
  | None | Some [] => []
  | Some l => [(key, replace_quotes (str_list l))]
  end.

Definition get_versions (slug_or_id : string)
    (loaders game_versions : option (list string)) : result :=
  try_return
    (fetch (BASE_URL +:+ "/project/" +:+ slug_or_id +:+ "/version")
           (param "loaders" loaders ++ param "game_versions" game_versions))
    (JArr []).

Definition get_version_dependencies (version_id : string) : result :=
  try_return
    (match fetch (BASE_URL +:+ "/version/" +:+ version_id) [] with
     | inr data => get_or_empty data "dependencies"
     | inl e => inl e
     end)
    (JArr []).

Definition get_project_dependencies (slug_or_id : string) : result :=
  try_return
    (match fetch (BASE_URL +:+ "/project/" +:+ slug_or_id +:+
                  "/dependencies") [] with
     | inr data => get_or_empty data "projects"
     | inl e => inl e
     end)
    (JArr []).

Definition resolve_latest_valid_version (slug_or_id : string)
    (loaders game_versions : list string) : result :=
  match get_versions slug_or_id (Some loaders) (Some game_versions) with
  | Err e => Err e
  | Ret versions =>
      if truthy versions then subscript_0 versions else Ret JNull
  end.

End modrinth.

(** ** Reference notions the properties are stated against *)

(** Breadth-first discovery, level by level, in the words of the design:
    the next level lists, by first occurrence, the dependencies of the
    current level that are catalog names not seen before; the discovery
    order is the concatenation of the levels after the requested one. *)
Section discovery_order.

Variable download_items : list item.
Variable deps_map : gmap string (list string).

Definition deps_of (n : string) : list string :=
  default [] (deps_map !! n).

Definition discoverable (seen : gset string) (n : string) : Prop :=
  (n ∉ seen) ∧ is_Some (find_item_by_name download_items n).

Global Instance discoverable_dec seen n : Decision (discoverable seen n).
Proof. unfold discoverable. apply _. Defined.

Fixpoint first_occurrences (l : list string) : list string :=
  match l with
  | [] => []
  | x :: l' => x :: filter (λ y, y ≠ x) (first_occurrences l')
  end.

Definition next_level (seen : gset string) (frontier : list string)
  : list string :=
  first_occurrences
    (filter (discoverable seen) (flat_map deps_of frontier)).

Inductive discovery : gset string → list string → list string → Prop :=
  | discovery_end seen :
      discovery seen [] []
  | discovery_level seen frontier later :
      frontier ≠ [] →
      discovery (list_to_set (next_level seen frontier) ∪ seen)
                (next_level seen frontier) later →
      discovery seen frontier (next_level seen frontier ++ later).

(** The names the loop over a dependency list [ds] appends to the queue
    when it starts with the visited set [seen]. *)
Fixpoint discovered (seen : gset string) (ds : list string) : list string :=
  match ds with
  | [] => []
  | d :: ds' =>
      if decide (discoverable seen d) then d :: discovered ({[d]} ∪ seen) ds'
      else discovered seen ds'
  end.

End discovery_order.

(** What the traversal maintains, for the requested [items]: [processed]
    holds the requested names and the names of the extras and nothing else;
    the extras are catalog entries found by name, pairwise distinct and
    distinct from the requested names; they are the lookups that succeeded,
    in order; a name whose lookup failed is not in [processed]; and the
    names taken from or waiting in the queue are the requested names
    followed by the names of the extras. *)
Definition invariant (download_items items : list item) (st : state) : Prop :=
  processed st =
    list_to_set (names items) ∪ list_to_set (names (extra_items st)) ∧
  NoDup (names (extra_items st)) ∧
  (∀ n, n ∈ names (extra_items st) → n ∉ names items) ∧
  Forall (λ it, find_item_by_name download_items (name it) = Some it)
         (extra_items st) ∧
  names (extra_items st) =
    filter (λ n, is_Some (find_item_by_name download_items n)) (lookups st) ∧
  (∀ n, n ∈ lookups st → find_item_by_name download_items n = None →
        n ∉ processed st) ∧
  popped st ++ to_process st = names items ++ names (extra_items st).

(** The first exception met when the steps of a transfer are followed in
    program order: the request, the status check, the length header, the
    opening of the destination, the writes of the non-empty chunks, the end
    of the body. *)
Fixpoint first_write_error (cs : list chunk) : option exn :=
  match cs with
  | [] => None
  | c :: cs' =>
      if decide (chunk_len c = 0%N) then first_write_error cs'
      else match chunk_write c with
           | Some e => Some e
           | None => first_write_error cs'
           end
  end.

Definition arising (g : get_result) : option exn :=
  match g with
  | GetRaises e => Some e
  | GetReturns r =>
      match raise_for_status r, content_length r, open_destination r with
      | Some e, _, _ => Some e
      | None, inl e, _ => Some e
      | None, inr _, Some e => Some e
      | None, inr _, None =>
          match first_write_error (body r) with
          | Some e => Some e
          | None => body_end r
          end
      end
  end.

(** [s] begins with [p]. *)
Fixpoint starts_with (p s : string) : bool :=
  match p, s with
  | EmptyString, _ => true
  | String a p', String b s' => Ascii.eqb a b && starts_with p' s'
  | String _ _, EmptyString => false
  end.

(** A percentage line of the log, recognised by its text. *)
Definition is_progress_log (ev : event) : bool :=
  match ev with
  | Log line => starts_with "Downloading... " line
  | _ => false
  end.

Definition progress_log_count (t : list event) : nat :=
  length (filter (λ ev, is_progress_log ev = true) t).

(** Bytes received once the whole body has been read. *)
Definition body_length (cs : list chunk) : Z :=
  foldr (λ c acc, Z.of_N (chunk_len c) + acc) 0 cs.

(** What the chunk loop maintains when a total is declared: the next
    threshold is five times the number of percentage lines emitted so far
    plus one; the [i]-th line (from 0) was emitted at threshold [5 * (i+1)],
    with the comparison true for the bytes received then; and the log holds
    [base] percentage lines more than were emitted. *)
Definition paced (percent_ge : Z → Z → Z → bool) (total : Z) (base : nat)
    (st : progress) : Prop :=
  0 ≤ downloaded st ∧
  next_percent_log st = 5 * (Z.of_nat (length (emitted st)) + 1) ∧
  (∀ i n d, emitted st !! i = Some (n, d) →
     n = 5 * (Z.of_nat i + 1) ∧ percent_ge d total n = true ∧
     0 ≤ d ≤ downloaded st) ∧
  progress_log_count (trace st) = (base + length (emitted st))%nat.

(** The comparison [percent >= next_percent_log] in exact arithmetic, for a
    positive total. *)
Definition percent_ge_exact (d total n : Z) : bool :=
  bool_decide (n * total ≤ 100 * d).


(** A failed request: [session.get] raises, [raise_for_status] raises (the
    status is not a success), or the body is not JSON. *)
Definition failed (rp : reply) : Prop :=
  match rp with
  | Fails _ => True
  | Answers (Some _) _ => True
  | Answers None (inl _) => True
  | Answers None (inr _) => False
  end.

(** ** Sample data used by the closed examples *)

Module Sample.

Definition A : item := Item "A" "https://example.org/files/a.jar".
Definition B : item := Item "B" "https://example.org/files/b.jar".
Definition C : item := Item "C" "https://example.org/files/c.jar".

Definition catalog : list item := [A; B; C].

(** [{"A": ["B"], "B": ["A"]}]. *)
Definition cycle : gmap string (list string) :=
  <["A" := ["B"]]> (<["B" := ["A"]]> ∅).

(** [{"A": ["X", "C", "B"], "C": ["X", "B"]}], with no ["X"] in the
    catalog. *)
Definition with_missing : gmap string (list string) :=
  <["A" := ["X"; "C"; "B"]]> (<["C" := ["X"; "B"]]> ∅).

(** Stand-ins for the library functions the closed examples do not depend
    on: the path functions, and the rendering of a percentage. *)
Definition plain (s : string) : string := s.

Definition whole_percent (d total : Z) : string :=
  pretty (100 * d `div` total) +:+ ".0".

(** A response answered with status 404. *)
Definition not_found : get_result :=
  GetReturns
    {| raise_for_status :=
         Some (Exn "HTTPError" "404 Client Error: Not Found for url");
       content_length := inr 0;
       open_destination := None;
       body := [];
       body_end := None |}.

(** A body of 1,000,000 bytes with [Content-Length: 1000000], read in
    chunks of 8192 bytes. *)
Definition megabyte : response :=
  {| raise_for_status := None;
     content_length := inr 1000000;
     open_destination := None;
     body := replicate 122 (Chunk 8192 None) ++ [Chunk 576 None];
     body_end := None |}.

(** [Content-Length: 8192] (the length on the wire of a compressed body)
    while the iterator yields 25 decoded chunks of 8192 bytes. *)
Definition oversized : get_result :=
  GetReturns
    {| raise_for_status := None;
       content_length := inr 8192;
       open_destination := None;
       body := replicate 25 (Chunk 8192 None);
       body_end := None |}.

(** A small body with a matching length. *)
Definition small : get_result :=
  GetReturns
    {| raise_for_status := None;
       content_length := inr 10;
       open_destination := None;
       body := [Chunk 10 None];
       body_end := None |}.

(** The second request of a batch is answered with 404. *)
Definition second_fails (idx : nat) (selected : item) : get_result :=
  if decide (idx = 2%nat) then not_found else small.

Definition all_succeed (idx : nat) (selected : item) : get_result := small.

Definition join (dir file : string) : string := dir +:+ "/" +:+ file.

Definition fresh_app : app :=
  {| log_lines := []; logs_dir := None; sinks := [] |}.

(** The same application with [logerror1.txt] already in the directory. *)
Definition used_app : app :=
  {| log_lines := ["earlier"];
     logs_dir := Some (<["logerror1.txt" := "old"]> ∅);
     sinks := [] |}.

(** A network where every request to Modrinth times out, and one that
    answers every request with a list of two versions. *)
Definition offline (u : string) (params : list (string * string)) : reply :=
  Fails (Exn "ConnectTimeout" "timed out").

Definition two_versions (u : string) (params : list (string * string))
  : reply :=
  Answers None (inr (JArr [JObj [("id", JStr "v2")];
                           JObj [("id", JStr "v1")]])).

End Sample.

(** ** Configuration ([load_config]) *)

(** What [load_config] finds at [CONFIG_FILE]: no file, a file that cannot
    be read (any exception inside the [try]), or its text. *)
Inductive config_file :=
  | ConfigAbsent
  | ConfigUnreadable (e : exn)
  | ConfigText (text : string).

Section config.

(** [not text.strip()] and [json.loads(text)]. *)
Variable blank : string → bool.
Variable json_loads : string → exn + json.

(** The [try] block: the dict [cfg] it leaves, by its items. *)
Definition read_config (f : config_file) : list (string * json) :=
  match f with
  | ConfigAbsent => []
  | ConfigUnreadable _ => []
  | ConfigText text =>
      if blank text then []
      else match json_loads text with
           | inr (JObj fields) => fields
           | _ => []
           end
  end.

(** [if key not in cfg: cfg[key] = value]. *)
Definition set_default (key : string) (value : json)
    (cfg : list (string * json)) : list (string * json) :=
  match assoc cfg key with
  | Some _ => cfg
  | None => cfg ++ [(key, value)]
  end.

Definition load_config (f : config_file) : list (string * json) :=
  set_default "auto_check_update" (JBool false)
    (set_default "version" (JStr "1.0.0")
       (set_default "window_height" (JNum 520)
          (set_default "window_width" (JNum 720) (read_config f)))).

End config.

(** The four entries [load_config] guarantees. *)
Definition config_defaults : list (string * json) :=
  [ ("window_width", JNum 720); ("window_height", JNum 520);
    ("version", JStr "1.0.0"); ("auto_check_update", JBool false) ].

(** ** The gate of [start_download] *)

(** [dlg.action] when it is not [None]. *)
Inductive choice :=
  | ChoiceDownload
  | ChoiceDependencies.

(** How [start_download] ends: an alert dialog and nothing else, the
    confirmation dialog dismissed, or the worker thread started on a
    batch, after an optional information dialog. *)
Inductive start_result :=
  | Alert (title message : string)
  | Cancelled
  | Started (notice : option string) (batch : list item).

Section start.

Variable download_items : list item.
Variable deps_map : gmap string (list string).

(** The answer of [DownloadConfirmDialog] to the names it is shown. *)
Variable confirm : list string → option choice.

Definition start_download (online : bool) (download_dir : option string)
    (selected_items : list string) : option start_result :=
  if negb online then Some (Alert "Error" "Please enable wifi")
  else
    match download_dir, selected_items with
    | None, _ => Some (Alert "Error" "Please choose a plugin folder.")
    | Some _, [] =>
        Some (Alert "Error" "Please select at least one download.")
    | Some _, _ :: _ =>
        match items_to_download download_items selected_items with
        | [] => Some (Alert "Error" "No matching downloads found.")
        | first :: others =>
            let items := first :: others in
            match confirm (names items) with
            | None => Some Cancelled
            | Some ChoiceDownload => Some (Started None items)
            | Some ChoiceDependencies =>
                st ← traverse download_items deps_map items;
                Some (Started
                        (match extra_items st with
                         | [] => None
                         | _ :: _ =>
                             Some ("Added " +:+
                                   pretty (length (extra_items st)) +:+
                                   " dependencies to the download queue.")
                         end)
                        (extend_with items (extra_items st)))
            end
        end
    end.

End start.

(** ** The update check of the settings window ([_check_update_worker]) *)

(** What the worker asks the window to show. *)
Inductive update_ui :=
  | UpdateAvailable (latest_ver : string) (download_url : json)
  | UpToDate
  | CannotCheck (error_msg : string).

(** Sequencing of steps that may raise. *)
Definition and_then {A B : Type} (x : exn + A) (f : A → exn + B) : exn + B :=
  match x with
  | inl e => inl e
  | inr a => f a
  end.

(** Python's [a or b]. *)
Definition py_or (a b : json) : json := if truthy a then a else b.

(** [data.get(key, fallback)]; only a dict has the method. *)
Definition dict_get (data : json) (key : string) (fallback : json)
  : exn + json :=
  match data with
  | JObj fields => inr (default fallback (assoc fields key))
  | _ => inl (no_get data)
  end.

(** The elements [for asset in assets] visits: those of a list, the keys of
    a dict, the characters of a string; other values are not iterable. *)
Definition py_iter (v : json) : exn + list json :=
  match v with
  | JArr l => inr l
  | JObj fields => inr (JStr <$> fields.*1)
  | JStr s => inr (JStr <$> py_chars s)
  | _ =>
      inl (Exn "TypeError"
               ("'" +:+ py_type_name v +:+ "' object is not iterable"))
  end.

(** The loop over the assets: [download_url] when it ends, starting from
    the empty string. *)
Fixpoint find_asset (assets : list json) : exn + json :=
  match assets with
  | [] => inr (JStr EmptyString)
  | asset :: rest =>
      match dict_get asset "name" JNull with
      | inl e => inl e
      | inr (JStr s) =>
          if decide (s = "app.py")
          then dict_get asset "browser_download_url" JNull
          else find_asset rest
      | inr _ => find_asset rest
      end
  end.

(** Whether the loop stops at [asset]. *)
Definition is_app_asset (asset : json) : bool :=
  match asset with
  | JObj fields =>
      match assoc fields "name" with
      | Some (JStr s) => bool_decide (s = "app.py")
      | _ => false
      end
  | _ => false
  end.

Definition is_object (v : json) : bool :=
  match v with
  | JObj _ => true
  | _ => false
  end.

Section update.

(** [str.strip], Python's [str] of a list or dict, and [requests.get]. *)
Variable strip : string → string.
Variable repr : json → string.
Variable requests_get : string → reply.

(** [str(v)]. *)
Definition py_str (v : json) : string :=
  match v with
  | JStr s => s
  | JNull => "None"
  | JBool true => "True"
  | JBool false => "False"
  | JNum z => pretty z
  | _ => repr v
  end.

(** [str(data.get("tag_name") or data.get("name") or "").strip()]. *)
Definition latest_of (tag_name name : json) : string :=
  strip (py_str (py_or (py_or tag_name name) (JStr EmptyString))).

(** The [try] block, on [self.config_data] given by its items. *)
Definition check_update_try (config_data : list (string * json))
  : exn + update_ui :=
  let u :=
    strip (py_str (default (JStr EmptyString)
                           (assoc config_data "check_update_url"))) in
  if decide (u = EmptyString)
  then inl (Exn "ValueError" "No update URL configured")
  else
    match requests_get u with
    | Fails e => inl e
    | Answers (Some e) _ => inl e
    | Answers None (inl e) => inl e
    | Answers None (inr data) =>
        and_then (dict_get data "tag_name" JNull) (λ tag_name,
        and_then (dict_get data "name" JNull) (λ name,
        let latest := latest_of tag_name name in
        and_then (dict_get data "assets" (JArr [])) (λ assets,
        and_then (py_iter assets) (λ elements,
        and_then (find_asset elements) (λ download_url,
        let current :=
          py_str (default (JStr "1.0.0") (assoc config_data "version")) in
        inr (if decide (latest ≠ EmptyString ∧ latest ≠ current)
             then UpdateAvailable latest download_url
             else UpToDate))))))
    end.

(** [_check_update_worker]: the [except] branch shows the message. *)
Definition check_update_worker (config_data : list (string * json))
  : update_ui :=
  match check_update_try config_data with
  | inr ui => ui
  | inl e => CannotCheck (exn_msg e)
  end.

End update.

(** ** Breadth-first order over the catalog

    The order of discovery stated on the catalog itself, without the
    lookup function: a name is new when it is a catalog name not seen
    before; a level lists, by first occurrence, the new names among the
    dependencies of the previous level. *)
Section catalog_order.

Variable download_items : list item.
Variable deps_map : gmap string (list string).

Definition new_in_catalog (seen : gset string) (n : string) : Prop :=
  (n ∉ seen) ∧ n ∈ names download_items.

Global Instance new_in_catalog_dec seen n : Decision (new_in_catalog seen n).
Proof. unfold new_in_catalog. apply _. Defined.

Definition level_after (seen : gset string) (frontier : list string)
  : list string :=
  first_occurrences
    (filter (new_in_catalog seen) (flat_map (deps_of deps_map) frontier)).

Inductive breadth_first : gset string → list string → list string → Prop :=
  | breadth_first_end seen :
      breadth_first seen [] []
  | breadth_first_level seen frontier later :
      (frontier ≠ []) →
      breadth_first (list_to_set (level_after seen frontier) ∪ seen)
                    (level_after seen frontier) later →
      breadth_first seen frontier (level_after seen frontier ++ later).

(** [it] is the first catalog entry that carries its name. *)
Definition first_of_name (it : item) : Prop :=
  ∃ pre post, download_items = pre ++ it :: post ∧ name it ∉ names pre.

End catalog_order.

(** ** Further reference notions *)

(** [n] is reached from the names [roots] along entries of the dependency
    map. *)
Inductive reaches (deps_map : gmap string (list string))
    (roots : list string) : string → Prop :=
  | reaches_root n :
      n ∈ roots → reaches deps_map roots n
  | reaches_dep n ds d :
      reaches deps_map roots n → deps_map !! n = Some ds → d ∈ ds →
      reaches deps_map roots d.

(** A progress message, to the log or to the status line. *)
Definition is_progress_event (ev : event) : bool :=
  match ev with
  | Log text | Status text => starts_with "Downloading... " text
  | Ready _ => false
  end.

(** The messages a trace sends to [log_cb], in order. *)
Definition log_of (evs : list event) : list string :=
  omap (λ ev, match ev with Log line => Some line | _ => None end) evs.

(** The same response with another body. *)
Definition with_body (r : response) (cs : list chunk) : response :=
  {| raise_for_status := raise_for_status r;
     content_length := content_length r;
     open_destination := open_destination r;
     body := cs;
     body_end := body_end r |}.

(** The four calls that open every transfer. *)
Definition opening (path_name path_suffix : string → string)
    (destination : string) : list event :=
  [ Log ("Starting download: " +:+ path_name destination);
    Log ("Target path: " +:+ destination);
    Log ("Extension: " +:+
         (if decide (path_suffix destination = EmptyString)
          then "none" else path_suffix destination));
    Status ("Retrieving: " +:+ path_name destination) ].

(** Further sample data. *)
Module Fixture.

(** Forty chunks of 8192 bytes with no [Content-Length] header. *)
Definition unsized : response :=
  {| raise_for_status := None;
     content_length := inr 0;
     open_destination := None;
     body := replicate 40 (Chunk 8192 None);
     body_end := None |}.

End Fixture.

(** The text [get_log_text] makes of a list of lines. *)
Definition lines_text (lines : list string) : string :=
  join_lines lines +:+
  (match lines with [] => EmptyString | _ => newline end).

(** [c] occurs in [s]. *)
Fixpoint occurs (c : ascii) (s : string) : bool :=
  match s with
  | EmptyString => false
  | String c' rest => Ascii.eqb c c' || occurs c rest
  end.

(** A value on which [v[0]] raises although [v] is truthy. *)
Definition unsubscriptable (v : json) : Prop :=
  match v with
  | JObj (_ :: _) => True
  | JNum z => z ≠ 0
  | JBool b => b = true
  | _ => False
  end.

Module Replies.

(** A network that answers every request with status 200 and a fixed
    body. *)
Definition always (body : json) (u : string)
    (params : list (string * string)) : reply :=
  Answers None (inr body).

Definition version_object : json :=
  JObj [("id", JStr "v2"); ("dependencies", JArr [JStr "fabric-api"])].

Definition error_object : json := JObj [("error", JStr "not_found")].

End Replies.

Module Release.

(** A release with two assets, the second named [app.py]. *)
Definition notes : json :=
  JObj [("name", JStr "notes.txt");
        ("browser_download_url", JStr "https://example.org/notes.txt")].

Definition script : json :=
  JObj [("name", JStr "app.py");
        ("browser_download_url", JStr "https://example.org/app.py")].

Definition latest : json :=
  JObj [("tag_name", JStr "1.1.0"); ("assets", JArr [notes; script])].

Definition config : list (string * json) :=
  [("version", JStr "1.0.0");
   ("check_update_url", JStr "https://example.org/latest")].

Definition github (u : string) : reply := Answers None (inr latest).

Definition show (v : json) : string := "?".

End Release.

(** * Properties *)

(** ** Dependency expansion *)

Section expander_facts.

Variable download_items : list item.
Variable deps_map : gmap string (list string).

Local Abbreviation find := (find_item_by_name download_items).
Local Abbreviation visit := (visit_dep download_items).
Local Abbreviation step := (iteration download_items deps_map).
Local Abbreviation loop := (run download_items deps_map).
Local Abbreviation cat := (catalog_names download_items).
Local Abbreviation measure := (variant download_items).

Implicit Types (st : state) (n d : string) (l : list item).

Lemma find_in_Some l n it :
  find_in l n = Some it → it ∈ l ∧ name it = n.
Proof.
  induction l as [|x l IH]; simpl; [done|].
  case_decide as Hx; intros Hf.
  - simplify_eq. split; [left | done].
  - destruct (IH Hf). split; [by right | done].
Qed.

Lemma find_in_None l n : find_in l n = None ↔ n ∉ names l.
Proof.
  induction l as [|x l IH]; simpl.
  - split; [intros _; apply not_elem_of_nil | done].
  - case_decide as Hx.
    + split; [done | intros []; subst; left].
    + rewrite IH, not_elem_of_cons. naive_solver.
Qed.

Lemma find_Some_catalog n it : find n = Some it → n ∈ cat.
Proof.
  intros [Hin <-]%find_in_Some. unfold catalog_names, names.
  apply elem_of_list_to_set, list_elem_of_fmap. eauto.
Qed.

(** *** Termination *)

Lemma size_difference_insert (X Y : gset string) n :
  n ∈ X → n ∉ Y → size (X ∖ Y) = S (size (X ∖ ({[n]} ∪ Y))).
Proof.
  intros HX HY.
  assert (X ∖ Y = {[n]} ∪ X ∖ ({[n]} ∪ Y)) as ->.
  { apply set_eq. intros y. destruct (decide (y = n)); set_solver. }
  rewrite size_union by set_solver. by rewrite size_singleton.
Qed.

Lemma visit_variant st d : measure (visit st d) = measure st.
Proof.
  unfold visit_dep, variant. case_decide as Hd; [done|].
  destruct (find d) as [it|] eqn:Hf; simpl; [|done].
  rewrite length_app. simpl.
  rewrite (size_difference_insert cat (processed st) d);
    eauto using find_Some_catalog.
  lia.
Qed.

Lemma foldl_visit_variant ds st :
  measure (foldl visit st ds) = measure st.
Proof.
  revert st. induction ds as [|d ds IH]; intros st; simpl; [done|].
  by rewrite IH, visit_variant.
Qed.

Lemma step_variant st x rest :
  to_process st = x :: rest → S (measure (step st x rest)) = measure st.
Proof.
  intros Hq. unfold iteration.
  assert (S (measure (pop st x rest)) = measure st) as <-.
  { unfold variant, pop. simpl. by rewrite Hq. }
  destruct (deps_map !! x); [|done]. by rewrite foldl_visit_variant.
Qed.

Lemma loop_total fuel st : (measure st ≤ fuel)%nat → is_Some (loop fuel st).
Proof.
  revert st. induction fuel as [|fuel IH]; intros st Hm; simpl.
  - destruct (to_process st) eqn:Hq; [eauto|].
    unfold variant in Hm. rewrite Hq in Hm. simpl in Hm. lia.
  - destruct (to_process st) as [|x rest] eqn:Hq; [eauto|].
    apply IH. pose proof (step_variant st x rest Hq). lia.
Qed.

Lemma loop_mono fuel fuel' st r :
  loop fuel st = Some r → (fuel ≤ fuel')%nat → loop fuel' st = Some r.
Proof.
  revert fuel' st. induction fuel as [|fuel IH]; intros fuel' st; simpl.
  - destruct (to_process st) eqn:Hq; [|done].
    intros ? _. destruct fuel'; simpl; by rewrite Hq.
  - destruct (to_process st) as [|x rest] eqn:Hq.
    + intros ? _. destruct fuel'; simpl; by rewrite Hq.
    + intros Hr Hle. destruct fuel' as [|fuel']; [lia|]. simpl.
      rewrite Hq. apply IH; [done | lia].
Qed.

Lemma loop_agree fuel fuel' st r r' :
  loop fuel st = Some r → loop fuel' st = Some r' → r = r'.
Proof.
  intros H H'.
  apply (loop_mono _ (fuel `max` fuel')) in H; [|lia].
  apply (loop_mono _ (fuel `max` fuel')) in H'; [|lia].
  congruence.
Qed.

Lemma traverse_total items : is_Some (traverse download_items deps_map items).
Proof. apply loop_total. done. Qed.

(** *** Invariants of the loop *)

Lemma loop_invariant (P : state → Prop) :
  (∀ st x rest, P st → to_process st = x :: rest → P (pop st x rest)) →
  (∀ st d, P st → P (visit st d)) →
  ∀ fuel st r, P st → loop fuel st = Some r → P r ∧ to_process r = [].
Proof.
  intros Hpop Hvisit.
  assert (∀ ds st, P st → P (foldl visit st ds)) as Hfold.
  { induction ds as [|d ds IH]; intros st HP; simpl; [done|].
    apply IH, Hvisit, HP. }
  induction fuel as [|fuel IH]; intros st r HP; simpl.
  - destruct (to_process st) eqn:Hq; [|done]. by intros [= <-].
  - destruct (to_process st) as [|x rest] eqn:Hq; [by intros [= <-]|].
    apply IH. unfold iteration.
    destruct (deps_map !! x); [apply Hfold|]; by eapply Hpop.
Qed.

End expander_facts.

Section expander_invariant.

Variable download_items : list item.
Variable deps_map : gmap string (list string).
Variable items : list item.

Local Abbreviation find := (find_item_by_name download_items).
Local Abbreviation visit := (visit_dep download_items).
Local Abbreviation inv := (invariant download_items items).

Lemma names_snoc l it : names (l ++ [it]) = names l ++ [name it].
Proof. unfold names. by rewrite fmap_app. Qed.

Lemma invariant_init : inv (init items).
Proof.
  unfold invariant, init; simpl. repeat split.
  - set_solver.
  - constructor.
  - intros n Hn. by apply elem_of_nil in Hn.
  - constructor.
  - intros n Hn. by apply elem_of_nil in Hn.
  - by rewrite !app_nil_r.
Qed.

Lemma invariant_pop st x rest :
  inv st → to_process st = x :: rest → inv (pop st x rest).
Proof.
  unfold invariant, pop; simpl.
  intros (Hp & Hnd & Hdis & Hres & Hlk & Hmiss & Hq) Hx.
  repeat split; try done.
  rewrite Hx in Hq. by rewrite <- app_assoc.
Qed.

Lemma invariant_visit st d : inv st → inv (visit st d).
Proof.
  intros (Hp & Hnd & Hdis & Hres & Hlk & Hmiss & Hq).
  unfold visit_dep. case_decide as Hd; [done|].
  destruct (find d) as [it|] eqn:Hf; unfold invariant; simpl.
  - destruct (find_in_Some _ _ _ Hf) as [_ Hname].
    assert ((d ∉ names (extra_items st)) ∧ (d ∉ names items)) as [Hd1 Hd2].
    { rewrite Hp in Hd. set_solver. }
    rewrite names_snoc, Hname. repeat split.
    + rewrite Hp, list_to_set_app_L. set_solver.
    + apply NoDup_app. repeat split; [done| |apply NoDup_singleton].
      intros y Hy ->%list_elem_of_singleton. done.
    + intros n [Hn | ->%list_elem_of_singleton]%elem_of_app; auto.
    + apply Forall_app. split; [done|].
      apply Forall_singleton. by rewrite Hname.
    + rewrite filter_app, <- Hlk. f_equal.
      rewrite filter_cons_True by (rewrite Hf; eauto). done.
    + intros n [Hn | ->%list_elem_of_singleton]%elem_of_app Hnone;
        [|congruence].
      pose proof (Hmiss n Hn Hnone). set_solver.
    + by rewrite app_assoc, Hq, <- app_assoc.
  - repeat split; try done.
    + rewrite filter_app, <- Hlk.
      rewrite filter_cons_False by (rewrite Hf; by intros [? ?]).
      by rewrite app_nil_r.
    + intros n [Hn | ->%list_elem_of_singleton]%elem_of_app Hnone; auto.
Qed.

Lemma traverse_invariant :
  ∃ st, traverse download_items deps_map items = Some st ∧
        inv st ∧ to_process st = [].
Proof.
  destruct (traverse_total download_items deps_map items) as [st Hst].
  exists st. split; [done|].
  eapply (loop_invariant download_items deps_map inv);
    eauto using invariant_pop, invariant_visit, invariant_init.
Qed.

Lemma extend_with_app extra : extend_with items extra = items ++ extra.
Proof. destruct extra; simpl; [by rewrite app_nil_r | done]. Qed.

Lemma resolve_dependencies_spec :
  ∃ st, traverse download_items deps_map items = Some st ∧
        resolve_dependencies download_items deps_map items =
          Some (items ++ extra_items st) ∧
        inv st ∧ to_process st = [].
Proof.
  destruct traverse_invariant as (st & Hst & Hinv & Hq).
  exists st. split; [done|]. split; [|done].
  unfold resolve_dependencies. rewrite Hst. simpl.
  by rewrite extend_with_app.
Qed.

End expander_invariant.

Section expander_claims.

Variable download_items : list item.
Variable deps_map : gmap string (list string).

Local Abbreviation find := (find_item_by_name download_items).

Lemma items_to_download_NoDup selected_items :
  NoDup (names download_items) →
  NoDup (names (items_to_download download_items selected_items)).
Proof.
  unfold items_to_download, names.
  induction download_items as [|x l IH]; simpl; [done|].
  rewrite NoDup_cons. intros [Hx Hl].
  rewrite filter_cons. case_decide; [|auto].
  rewrite fmap_cons. apply NoDup_cons. split; [|auto].
  intros (y & Hy & [_ Hin]%list_elem_of_filter)%list_elem_of_fmap.
  apply Hx, list_elem_of_fmap. eauto.
Qed.

Lemma items_to_download_catalog selected_items it :
  it ∈ items_to_download download_items selected_items → it ∈ download_items.
Proof. unfold items_to_download. by intros [_ ?]%list_elem_of_filter. Qed.

Lemma items_to_download_covers selected_items n :
  n ∈ selected_items → n ∈ names download_items →
  n ∈ names (items_to_download download_items selected_items).
Proof.
  intros Hsel (it & -> & Hit)%list_elem_of_fmap.
  apply list_elem_of_fmap. exists it. split; [done|].
  by apply list_elem_of_filter.
Qed.

Lemma extras_in_catalog items st n :
  invariant download_items items st →
  n ∈ names (extra_items st) → n ∈ names download_items.
Proof.
  intros (_ & _ & _ & Hres & _) (it & -> & Hit)%list_elem_of_fmap.
  rewrite Forall_forall in Hres.
  destruct (find_in_Some _ _ _ (Hres it Hit)) as [Hin _].
  apply list_elem_of_fmap. eauto.
Qed.

Lemma result_NoDup items st :
  NoDup (names items) → invariant download_items items st →
  NoDup (names (items ++ extra_items st)).
Proof.
  intros Hnd (_ & Hfresh & Hdis & _).
  unfold names. rewrite fmap_app. apply NoDup_app.
  split; [done|]. split; [|done].
  intros n Hn Hn'. by apply (Hdis n).
Qed.

End expander_claims.

(** C1. With catalog names unique (the data model's invariant on the
    catalog), for every selection, catalog and dependency map the expansion
    returns a list without duplicate names that contains every selected
    name that is a catalog name. *)
Theorem expand_no_duplicates_superset
    (download_items : list item) (deps_map : gmap string (list string))
    (selected_items : list string) :
  NoDup (names download_items) →
  ∃ r, expand download_items deps_map selected_items = Some r ∧
       NoDup (names r) ∧
       ∀ n, n ∈ selected_items → n ∈ names download_items → n ∈ names r.
Proof.
  intros Hcat. unfold expand.
  destruct (resolve_dependencies_spec download_items deps_map
              (items_to_download download_items selected_items))
    as (st & _ & Hr & Hinv & _).
  eexists. split; [exact Hr|]. split.
  - eapply result_NoDup; [|done]. by apply items_to_download_NoDup.
  - intros n Hsel Hn. unfold names. rewrite fmap_app.
    apply elem_of_app. left. by apply items_to_download_covers.
Qed.

(** C2. A name that a dependency-map entry mentions but that is absent from
    the catalog is not in the expansion result, and the expansion still
    returns its result. *)
Theorem missing_dependency_skipped
    (download_items : list item) (deps_map : gmap string (list string))
    (selected_items : list string) (k n : string) (ds : list string) :
  deps_map !! k = Some ds → n ∈ ds → n ∉ names download_items →
  ∃ r, expand download_items deps_map selected_items = Some r ∧
       n ∉ names r.
Proof.
  intros _ _ Hn. unfold expand.
  destruct (resolve_dependencies_spec download_items deps_map
              (items_to_download download_items selected_items))
    as (st & _ & Hr & Hinv & _).
  eexists. split; [exact Hr|].
  unfold names. rewrite fmap_app. intros [Hin | Hin]%elem_of_app.
  - apply Hn. apply list_elem_of_fmap in Hin as (it & -> & Hit).
    apply list_elem_of_fmap. eauto using items_to_download_catalog.
  - apply Hn. eauto using extras_in_catalog.
Qed.

(** C3, as stated, fails: in the catalog [A; B; C] with the dependencies
    A -> X, C, B and C -> X, B, the name X is looked up while A is
    processed, is not found, is not put into [processed], and is looked up
    a second time while C is processed. *)
Lemma unfound_name_looked_up_again :
  find_item_by_name Sample.catalog "X" = None ∧
  lookups <$> traverse Sample.catalog Sample.with_missing [Sample.A] =
    Some ["X"; "C"; "B"; "X"] ∧
  (λ st, bool_decide ("X" ∈ processed st)) <$>
      traverse Sample.catalog Sample.with_missing [Sample.A] = Some false.
Proof. split; [|split]; vm_compute; reflexivity. Qed.

(** C3, amended.  A dependency name whose lookup fails leaves the queue,
    the result and [processed] as they are, so it is looked up again when
    it is reached again; at the end no such name is in [processed]; the
    names appended to the result are the lookups that succeeded, in order,
    and [processed] holds the requested names and these and nothing else;
    the names that went through the queue are the requested names followed
    by the names appended to the result. *)
Theorem unfound_names_stay_unmarked
    (download_items : list item) (deps_map : gmap string (list string))
    (items : list item) :
  (∀ st d, d ∉ processed st → find_item_by_name download_items d = None →
     let st' := visit_dep download_items st d in
     processed st' = processed st ∧ to_process st' = to_process st ∧
     extra_items st' = extra_items st ∧ lookups st' = lookups st ++ [d]) ∧
  ∃ st, traverse download_items deps_map items = Some st ∧
    (∀ n, n ∈ lookups st → find_item_by_name download_items n = None →
          n ∉ processed st) ∧
    names (extra_items st) =
      filter (λ n, is_Some (find_item_by_name download_items n))
             (lookups st) ∧
    processed st =
      list_to_set (names items) ∪ list_to_set (names (extra_items st)) ∧
    popped st = names items ++ names (extra_items st).
Proof.
  split.
  - intros st d Hd Hf. unfold visit_dep. simpl.
    rewrite decide_False by done. by rewrite Hf.
  - destruct (traverse_invariant download_items deps_map items)
      as (st & Hst & (Hp & _ & _ & _ & Hlk & Hmiss & Hq) & Hend).
    exists st. rewrite Hend, app_nil_r in Hq. done.
Qed.

Section two_cycle.

Variable download_items : list item.
Variable deps_map : gmap string (list string).

Local Abbreviation loop := (run download_items deps_map).
Local Abbreviation step := (iteration download_items deps_map).

Lemma filter_none (l : list item) (a : string) :
  a ∉ names l → filter (λ it, name it ∈ [a]) l = [].
Proof.
  induction l as [|x l IH]; [done|].
  unfold names. rewrite fmap_cons, not_elem_of_cons. intros [Hx Hl].
  rewrite filter_cons_False; [by apply IH|].
  intros Hin%list_elem_of_singleton. by apply Hx.
Qed.

Lemma items_to_download_single (l : list item) a ia :
  NoDup (names l) → find_in l a = Some ia →
  items_to_download l [a] = [ia].
Proof.
  unfold items_to_download.
  induction l as [|x l IH]; simpl; [done|].
  intros [Hx Hl]%NoDup_cons.
  case_decide as Hn.
  - intros [= ->]. rewrite filter_cons_True by (rewrite Hn; left).
    rewrite filter_none; [done|]. by rewrite <- Hn.
  - intros Hf. rewrite filter_cons_False; [by apply IH|].
    by intros Hin%list_elem_of_singleton.
Qed.

Lemma run_step fuel st x rest :
  to_process st = x :: rest → loop (S fuel) st = loop fuel (step st x rest).
Proof. intros Hq. simpl. by rewrite Hq. Qed.

Lemma run_done fuel st : to_process st = [] → loop fuel st = Some st.
Proof. intros Hq. destruct fuel; simpl; by rewrite Hq. Qed.

Lemma two_cycle a b ia ib :
  NoDup (names download_items) → a ≠ b →
  find_item_by_name download_items a = Some ia →
  find_item_by_name download_items b = Some ib →
  deps_map !! a = Some [b] → deps_map !! b = Some [a] →
  expand download_items deps_map [a] = Some [ia; ib].
Proof.
  intros Hnd Hab Ha Hb Hda Hdb.
  unfold expand. rewrite (items_to_download_single _ a ia) by done.
  destruct (find_in_Some _ _ _ Ha) as [_ Hna].
  unfold resolve_dependencies.
  destruct (traverse_total download_items deps_map [ia]) as [st Hst].
  rewrite Hst. simpl.
  set (st1 := {| to_process := [b]; processed := {[b]} ∪ list_to_set [a];
                 extra_items := [ib]; lookups := [b]; popped := [a] |}).
  set (st2 := {| to_process := []; processed := {[b]} ∪ list_to_set [a];
                 extra_items := [ib]; lookups := [b]; popped := [a; b] |}).
  assert (step (init [ia]) a [] = st1) as H1.
  { unfold iteration, init, pop. rewrite Hda. simpl. rewrite Hna.
    unfold visit_dep. simpl.
    rewrite decide_False by set_solver. by rewrite Hb. }
  assert (step st1 b [] = st2) as H2.
  { unfold iteration, st1, pop. rewrite Hdb. simpl.
    unfold visit_dep. simpl. by rewrite decide_True by set_solver. }
  assert (loop 2 (init [ia]) = Some st2) as Hrun.
  { rewrite (run_step _ _ a []) by (simpl; by rewrite Hna).
    rewrite H1, (run_step _ _ b []) by done.
    rewrite H2. by apply run_done. }
  by rewrite (loop_agree _ _ _ _ _ _ _ Hst Hrun).
Qed.

Lemma popped_once items :
  ∃ st, traverse download_items deps_map items = Some st ∧
        to_process st = [] ∧
        popped st = names items ++ names (extra_items st) ∧
        (NoDup (names items) → NoDup (popped st)).
Proof.
  destruct (traverse_invariant download_items deps_map items)
    as (st & Hst & Hinv & Hend).
  exists st. split; [done|]. split; [done|].
  pose proof Hinv as (_ & _ & _ & _ & _ & _ & Hq).
  rewrite Hend, app_nil_r in Hq. split; [done|].
  intros Hnd. rewrite Hq. unfold names. rewrite <- fmap_app.
  by apply (result_NoDup download_items).
Qed.

End two_cycle.

(** C5. With two distinct catalog names that depend on each other (unique
    catalog names), expanding the selection of the first returns the two
    items, each once.  And on every input the traversal ends with an empty
    queue; the names it took from the queue are the requested names
    followed by the discovered ones, so with distinct requested names no
    name is processed twice. *)
Theorem two_cycle_and_termination :
  (∀ (download_items : list item) (deps_map : gmap string (list string))
     (a b : string) (ia ib : item),
     NoDup (names download_items) → a ≠ b →
     find_item_by_name download_items a = Some ia →
     find_item_by_name download_items b = Some ib →
     deps_map !! a = Some [b] → deps_map !! b = Some [a] →
     expand download_items deps_map [a] = Some [ia; ib]) ∧
  (∀ (download_items : list item) (deps_map : gmap string (list string))
     (items : list item),
     ∃ st, traverse download_items deps_map items = Some st ∧
           to_process st = [] ∧
           popped st = names items ++ names (extra_items st) ∧
           (NoDup (names items) → NoDup (popped st))).
Proof. split; [apply two_cycle | apply popped_once]. Qed.

Section discovery_facts.

Variable download_items : list item.
Variable deps_map : gmap string (list string).

Local Abbreviation find := (find_item_by_name download_items).
Local Abbreviation visit := (visit_dep download_items).
Local Abbreviation step := (iteration download_items deps_map).
Local Abbreviation loop := (run download_items deps_map).
Local Abbreviation fresh := (discoverable download_items).
Local Abbreviation found := (discovered download_items).
Local Abbreviation level := (next_level download_items deps_map).

Lemma first_occurrences_filter (Q : string → Prop)
    `{!∀ x, Decision (Q x)} (l : list string) :
  first_occurrences (filter Q l) = filter Q (first_occurrences l).
Proof.
  induction l as [|x l IH]; [done|]. simpl.
  destruct (decide (Q x)) as [HQ|HQ].
  - rewrite !filter_cons_True by done. simpl. f_equal.
    rewrite IH, !list_filter_filter. apply list_filter_iff. naive_solver.
  - rewrite !filter_cons_False by done.
    rewrite IH, list_filter_filter. apply list_filter_iff.
    intros y. split; [|naive_solver]. intros Hy. split; [done|].
    by intros ->.
Qed.

Lemma discovered_first_occurrences seen ds :
  found seen ds = first_occurrences (filter (fresh seen) ds).
Proof.
  revert seen. induction ds as [|d ds IH]; intros seen; [done|]. simpl.
  case_decide as Hd.
  - rewrite filter_cons_True by done. simpl. f_equal.
    rewrite IH, <- first_occurrences_filter, list_filter_filter.
    f_equal. apply list_filter_iff. intros y. unfold discoverable.
    set_solver.
  - by rewrite filter_cons_False.
Qed.

Lemma discovered_app seen l1 l2 :
  found seen (l1 ++ l2) =
  found seen l1 ++ found (list_to_set (found seen l1) ∪ seen) l2.
Proof.
  revert seen. induction l1 as [|d l1 IH]; intros seen; simpl.
  - by rewrite (left_id_L ∅ (∪)).
  - case_decide; [|done]. simpl. rewrite IH. do 2 f_equal.
    f_equal. set_solver.
Qed.

(** Effect of the inner [for] loop. *)
Lemma foldl_visit ds st :
  ∃ its lk,
    names its = found (processed st) ds ∧
    foldl visit st ds =
      {| to_process := to_process st ++ found (processed st) ds;
         processed := list_to_set (found (processed st) ds) ∪ processed st;
         extra_items := extra_items st ++ its;
         lookups := lk;
         popped := popped st |}.
Proof.
  revert st. induction ds as [|d ds IH]; intros st; simpl.
  - exists [], (lookups st). split; [done|].
    rewrite !app_nil_r, (left_id_L ∅ (∪)). by destruct st.
  - unfold visit_dep at 2.
    destruct (decide (d ∈ processed st)) as [Hd|Hd].
    { rewrite decide_False by (intros [? ?]; done). apply IH. }
    destruct (find d) as [it|] eqn:Hf.
    + rewrite decide_True by (split; [done | by eexists]).
      edestruct IH as (its & lk & Hn & ->). simpl.
      exists (it :: its), lk. split.
      * simpl. rewrite Hn.
        by destruct (find_in_Some _ _ _ Hf) as [_ ->].
      * rewrite <- !app_assoc. simpl. f_equal. set_solver.
    + rewrite decide_False by (intros [_ [? ?]]; congruence).
      edestruct IH as (its & lk & Hn & ->). simpl. eauto.
Qed.

Lemma step_deps_of st x rest :
  step st x rest = foldl visit (pop st x rest) (deps_of deps_map x).
Proof. unfold iteration, deps_of. by destruct (deps_map !! x). Qed.

(** Processing a whole level: the queue [front ++ acc] becomes [acc]
    followed by what the level discovers. *)
Lemma frontier_pass front :
  ∀ acc seen ex lk pp,
  ∃ its lk',
    names its = found seen (flat_map (deps_of deps_map) front) ∧
    ∀ fuel,
      loop (length front + fuel)
        {| to_process := front ++ acc; processed := seen;
           extra_items := ex; lookups := lk; popped := pp |} =
      loop fuel
        {| to_process :=
             acc ++ found seen (flat_map (deps_of deps_map) front);
           processed :=
             list_to_set (found seen (flat_map (deps_of deps_map) front))
             ∪ seen;
           extra_items := ex ++ its; lookups := lk';
           popped := pp ++ front |}.
Proof.
  induction front as [|x front IH]; intros acc seen ex lk pp.
  - exists [], lk. split; [done|]. intros fuel. simpl.
    by rewrite !app_nil_r, (left_id_L ∅ (∪)).
  - set (st := {| to_process := (x :: front) ++ acc; processed := seen;
                  extra_items := ex; lookups := lk; popped := pp |}).
    destruct (foldl_visit (deps_of deps_map x)
                (pop st x (front ++ acc))) as (its1 & lk1 & Hn1 & Hfold).
    simpl in Hn1, Hfold.
    destruct (IH (acc ++ found seen (deps_of deps_map x))
                 (list_to_set (found seen (deps_of deps_map x)) ∪ seen)
                 (ex ++ its1) lk1 (pp ++ [x]))
      as (its2 & lk2 & Hn2 & Hloop).
    exists (its1 ++ its2), lk2. split.
    + unfold names in *. rewrite fmap_app, Hn1, Hn2. simpl.
      by rewrite discovered_app.
    + intros fuel.
      change (length (x :: front) + fuel)%nat
        with (S (length front + fuel)).
      rewrite (run_step download_items deps_map _ st x (front ++ acc))
        by done.
      rewrite step_deps_of, Hfold, <- app_assoc, Hloop. simpl.
      rewrite discovered_app, !app_assoc. do 2 f_equal.
      * rewrite list_to_set_app_L. set_solver.
      * by rewrite <- app_assoc.
Qed.

Lemma foldl_visit_queue ds st :
  (length (to_process st) ≤ length (to_process (foldl visit st ds)))%nat.
Proof.
  destruct (foldl_visit ds st) as (its & lk & _ & ->).
  simpl. rewrite length_app. lia.
Qed.

Lemma loop_short fuel st :
  (fuel < length (to_process st))%nat → loop fuel st = None.
Proof.
  revert st. induction fuel as [|fuel IH]; intros st Hlt; simpl.
  - destruct (to_process st); [simpl in Hlt; lia | done].
  - destruct (to_process st) as [|x rest] eqn:Hq; [simpl in Hlt; lia|].
    apply IH. rewrite step_deps_of.
    pose proof (foldl_visit_queue (deps_of deps_map x) (pop st x rest)).
    simpl in *. lia.
Qed.

Lemma loop_discovery fuel :
  ∀ frontier seen ex lk pp r,
    loop fuel {| to_process := frontier; processed := seen;
                 extra_items := ex; lookups := lk; popped := pp |} = Some r →
    ∃ later, extra_items r = ex ++ later ∧
             discovery download_items deps_map seen frontier (names later).
Proof.
  induction fuel as [fuel IH] using lt_wf_ind.
  intros frontier seen ex lk pp r Hr.
  destruct frontier as [|x frontier].
  - rewrite run_done in Hr by done. injection Hr as <-.
    exists []. simpl. rewrite app_nil_r. split; [done | constructor].
  - destruct (decide (fuel < length (x :: frontier))%nat) as [Hlt|Hge].
    { by rewrite loop_short in Hr. }
    destruct (frontier_pass (x :: frontier) [] seen ex lk pp)
      as (its & lk' & Hn & Hloop).
    specialize (Hloop (fuel - length (x :: frontier))%nat).
    rewrite app_nil_r in Hloop.
    replace (length (x :: frontier) + (fuel - length (x :: frontier)))%nat
      with fuel in Hloop by lia.
    rewrite Hloop in Hr. rewrite app_nil_l in Hr.
    apply IH in Hr as (later & Hex & Hdisc); [|simpl in Hge |- *; lia].
    exists (its ++ later). split; [by rewrite Hex, app_assoc|].
    unfold names in *. rewrite fmap_app, Hn. clear Hn.
    rewrite discovered_first_occurrences in *.
    by apply discovery_level.
Qed.

End discovery_facts.

(** From the list that reaches the expansion block, the loop returns that
    list followed by the extras, found by lookup, in the order of
    [discovery]. *)
Lemma resolve_discovery_order
    (download_items : list item) (deps_map : gmap string (list string))
    (items : list item) :
  ∃ extras,
    resolve_dependencies download_items deps_map items =
      Some (items ++ extras) ∧
    Forall (λ it, find_item_by_name download_items (name it) = Some it)
           extras ∧
    discovery download_items deps_map
      (list_to_set (names items)) (names items) (names extras).
Proof.
  destruct (resolve_dependencies_spec download_items deps_map items)
    as (st & Hst & Hr & (_ & _ & _ & Hres & _) & _).
  exists (extra_items st). split; [done|]. split; [done|].
  apply loop_discovery in Hst as (later & Hex & Hdisc).
  simpl in Hex. by rewrite Hex.
Qed.

Lemma expand_no_duplicates_superset_witness :
  NoDup (names Sample.catalog) ∧
  ∃ r, expand Sample.catalog Sample.with_missing ["A"; "Z"] = Some r ∧
       NoDup (names r) ∧
       ∀ n, n ∈ ["A"; "Z"] → n ∈ names Sample.catalog → n ∈ names r.
Proof.
  assert (NoDup (names Sample.catalog)) as Hcat.
  { apply (bool_decide_unpack _). vm_compute. exact I. }
  split; [exact Hcat|].
  exact (expand_no_duplicates_superset
           Sample.catalog Sample.with_missing ["A"; "Z"] Hcat).
Defined.

Lemma missing_dependency_skipped_witness :
  Sample.with_missing !! "A" = Some ["X"; "C"; "B"] ∧
  "X" ∈ ["X"; "C"; "B"] ∧
  ("X" ∉ names Sample.catalog) ∧
  ∃ r, expand Sample.catalog Sample.with_missing ["A"] = Some r ∧
       "X" ∉ names r.
Proof.
  assert (Sample.with_missing !! "A" = Some ["X"; "C"; "B"]) as Hk.
  { vm_compute. reflexivity. }
  assert ("X" ∈ ["X"; "C"; "B"]) as Hin.
  { apply (bool_decide_unpack _). vm_compute. exact I. }
  assert ("X" ∉ names Sample.catalog) as Hout.
  { apply (bool_decide_unpack _). vm_compute. exact I. }
  split; [exact Hk|]. split; [exact Hin|]. split; [exact Hout|].
  exact (missing_dependency_skipped Sample.catalog Sample.with_missing
           ["A"] "A" "X" ["X"; "C"; "B"] Hk Hin Hout).
Defined.

Lemma two_cycle_and_termination_witness :
  expand Sample.catalog Sample.cycle ["A"] = Some [Sample.A; Sample.B].
Proof.
  apply (proj1 two_cycle_and_termination
           Sample.catalog Sample.cycle "A" "B" Sample.A Sample.B).
  - apply (bool_decide_unpack _). vm_compute. exact I.
  - apply (bool_decide_unpack _). vm_compute. exact I.
  - vm_compute. reflexivity.
  - vm_compute. reflexivity.
  - vm_compute. reflexivity.
  - vm_compute. reflexivity.
Defined.

(** ** The run-log recorder *)

Lemma append_nil (t : string) : EmptyString +:+ t = t.
Proof. reflexivity. Qed.

Lemma append_cons (c : ascii) (s t : string) :
  String c s +:+ t = String c (s +:+ t).
Proof. reflexivity. Qed.

Lemma length_append (s t : string) :
  String.length (s +:+ t) = (String.length s + String.length t)%nat.
Proof.
  induction s as [|c s IH]; [done|].
  rewrite append_cons. simpl. by rewrite IH.
Qed.

Lemma append_inj_r (s1 s2 t : string) : s1 +:+ t = s2 +:+ t → s1 = s2.
Proof.
  revert s2. induction s1 as [|c s1 IH]; intros [|c' s2] Heq; [done| | |].
  - apply (f_equal String.length) in Heq.
    rewrite append_nil, append_cons in Heq. simpl in Heq.
    rewrite length_append in Heq. lia.
  - apply (f_equal String.length) in Heq.
    rewrite append_nil, append_cons in Heq. simpl in Heq.
    rewrite length_append in Heq. lia.
  - rewrite !append_cons in Heq. injection Heq as -> Heq.
    f_equal. by apply IH.
Qed.

Lemma candidate_inj (base : string) (n m : nat) :
  candidate base n = candidate base m → n = m.
Proof.
  unfold candidate. intros Heq.
  apply (inj (String.append base)) in Heq.
  apply append_inj_r in Heq. by apply (inj pretty) in Heq.
Qed.

Section scan_facts.

Variable base : string.

(** What the scan returns is free, and everything it passed exists. *)
Lemma scan_lowest dir fuel n m :
  scan dir base fuel n = Some m →
  (n ≤ m)%nat ∧ file_exists dir (candidate base m) = false ∧
  ∀ k, (n ≤ k < m)%nat → file_exists dir (candidate base k) = true.
Proof.
  revert n. induction fuel as [|fuel IH]; intros n; simpl.
  - destruct (file_exists dir (candidate base n)) eqn:Hn; [done|].
    intros [= <-]. split; [lia|]. split; [done|]. intros k ?. lia.
  - destruct (file_exists dir (candidate base n)) eqn:Hn.
    + intros (Hle & Hfree & Hbelow)%IH. split; [lia|]. split; [done|].
      intros k Hk. destruct (decide (k = n)) as [->|]; [done|].
      apply Hbelow. lia.
    + intros [= <-]. split; [lia|]. split; [done|]. intros k ?. lia.
Qed.

(** The scan stops: the candidates from [n] on that exist all lie in a set
    of at most [fuel] names. *)
Lemma scan_stops (files : gmap string string) fuel :
  ∀ n (D : gset string),
    (∀ k, (n ≤ k)%nat → candidate base k ∈ dom files →
          candidate base k ∈ D) →
    (size D ≤ fuel)%nat →
    is_Some (scan (Some files) base fuel n).
Proof.
  induction fuel as [|fuel IH]; intros n D HD Hsize; simpl.
  - case_bool_decide as Hn; [|eauto].
    apply HD in Hn; [|lia].
    assert (size D ≠ 0%nat); [|lia].
    apply size_non_empty_iff. set_solver.
  - case_bool_decide as Hn; [|eauto].
    apply (IH (S n) (D ∖ {[candidate base n]})).
    + intros k Hk Hin. apply elem_of_difference. split; [apply HD; [lia|done]|].
      intros ->%elem_of_singleton%candidate_inj. lia.
    + apply HD in Hn; [|lia].
      rewrite size_difference by set_solver.
      rewrite size_singleton.
      assert (size D ≠ 0%nat); [|lia].
      apply size_non_empty_iff. set_solver.
Qed.

Lemma scan_total dir n : is_Some (scan dir base (scan_fuel dir) n).
Proof.
  destruct dir as [files|]; simpl.
  - by apply (scan_stops files _ n (dom files)).
  - destruct (scan_fuel None); simpl; eauto.
Qed.

End scan_facts.

Section recorder_facts.

Variable mkdir_error : option exn.
Variable write_error : option write_failure.
Variable missing_dir_error : exn.

Local Abbreviation mkdir := (ensure_dir mkdir_error).
Local Abbreviation persist :=
  (save_log mkdir_error write_error missing_dir_error).

Lemma file_exists_ensure_dir dir f :
  file_exists (mkdir dir) f = file_exists dir f.
Proof.
  destruct dir as [files|]; [done|]. unfold ensure_dir.
  destruct mkdir_error; [done|]. simpl.
  apply bool_decide_eq_false. set_solver.
Qed.

Lemma save_log_scan a success :
  ∃ n, scan (mkdir (logs_dir a)) (base_name success)
            (scan_fuel (mkdir (logs_dir a))) 1 = Some n ∧
       (1 ≤ n)%nat ∧
       file_exists (logs_dir a) (candidate (base_name success) n) = false ∧
       ∀ k, (1 ≤ k < n)%nat →
            file_exists (logs_dir a) (candidate (base_name success) k) = true.
Proof.
  destruct (scan_total (base_name success) (mkdir (logs_dir a)) 1)
    as [n Hn].
  exists n. split; [done|].
  apply scan_lowest in Hn as (Hle & Hfree & Hbelow).
  rewrite file_exists_ensure_dir in Hfree. split; [done|]. split; [done|].
  intros k Hk. rewrite <- file_exists_ensure_dir. by apply Hbelow.
Qed.

End recorder_facts.

(** C7. For every state of the log directory and either outcome class,
    [save_log] returns [{base}{n}.txt] where [n >= 1] is the lowest number
    whose file does not exist yet: that file is absent and the files of all
    lower numbers exist.  Every file already in the directory keeps its
    content; when the directory exists or can be created and the write
    succeeds, the new file holds the log text.  In particular, with
    [logerror1.txt] present and [logerror2.txt] absent, an error-class call
    chooses [logerror2.txt]. *)
Theorem save_log_lowest_free
    (mkdir_error : option exn) (write_error : option write_failure)
    (missing_dir_error : exn)
    (a : app) (success : bool) :
  ∃ n a',
    save_log mkdir_error write_error missing_dir_error a success =
      Some (candidate (base_name success) n, a') ∧
    (1 ≤ n)%nat ∧
    file_exists (logs_dir a) (candidate (base_name success) n) = false ∧
    (∀ k, (1 ≤ k < n)%nat →
          file_exists (logs_dir a) (candidate (base_name success) k) = true) ∧
    (∀ files f, logs_dir a = Some files → f ∈ dom files →
       ∃ files', logs_dir a' = Some files' ∧ files' !! f = files !! f) ∧
    (write_error = None → is_Some (logs_dir a) ∨ mkdir_error = None →
       ∃ files', logs_dir a' = Some files' ∧
         files' !! candidate (base_name success) n = Some (get_log_text a)) ∧
    (success = false →
     file_exists (logs_dir a) "logerror1.txt" = true →
     file_exists (logs_dir a) "logerror2.txt" = false →
     candidate (base_name success) n = "logerror2.txt").
Proof.
  destruct (save_log_scan mkdir_error a success)
    as (n & Hscan & Hle & Hfree & Hbelow).
  assert (success = false →
          file_exists (logs_dir a) "logerror1.txt" = true →
          file_exists (logs_dir a) "logerror2.txt" = false →
          candidate (base_name success) n = "logerror2.txt") as Hsecond.
  { intros -> H1 H2.
    destruct (decide (n = 2%nat)) as [->|Hn]; [done|].
    destruct (decide (n = 1%nat)) as [->|Hn1].
    { change (candidate (base_name false) 1) with "logerror1.txt" in Hfree.
      congruence. }
    pose proof (Hbelow 2%nat ltac:(lia)) as H2'.
    change (candidate (base_name false) 2) with "logerror2.txt" in H2'.
    congruence. }
  assert (∀ files f, logs_dir a = Some files → f ∈ dom files →
            f ≠ candidate (base_name success) n) as Hother.
  { intros files f Hdir Hf ->. rewrite Hdir in Hfree. simpl in Hfree.
    by apply bool_decide_eq_false in Hfree. }
  unfold save_log. rewrite Hscan. simpl. unfold write_text, ensure_dir.
  destruct (logs_dir a) as [files0|] eqn:Hd.
  - destruct write_error as [[e [partial|]]|]; simpl;
      eexists n, _; (split; [reflexivity|]); (split; [done|]);
      (split; [done|]); (split; [done|]); simpl;
      (split; [|split; [|done]]).
    + intros files f [= <-] Hf. eexists. split; [done|].
      apply lookup_insert_ne. intros Heq. by apply (Hother files0 f).
    + done.
    + intros files f [= <-] Hf. eauto.
    + done.
    + intros files f [= <-] Hf. eexists. split; [done|].
      apply lookup_insert_ne. intros Heq. by apply (Hother files0 f).
    + intros _ _. eexists. split; [done|]. apply lookup_insert_eq.
  - destruct mkdir_error as [e0|]; [|destruct write_error as [[e [partial|]]|]];
      simpl; eexists n, _; (split; [reflexivity|]); (split; [done|]);
      (split; [done|]); (split; [done|]); simpl;
      (split; [done|split; [|done]]).
    + intros _ [[? ?]|?]; done.
    + done.
    + done.
    + intros _ _. eexists. split; [done|]. apply lookup_insert_eq.
Qed.

(** ** The transfer engine *)

Section transfer_facts.

Variable path_name : string → string.
Variable path_suffix : string → string.
Variable percent_ge : Z → Z → Z → bool.
Variable fmt_percent : Z → Z → string.

Local Abbreviation chunk_do := (chunk_step percent_ge fmt_percent).
Local Abbreviation read := (stream percent_ge fmt_percent).
Local Abbreviation try_block :=
  (attempt path_name path_suffix percent_ge fmt_percent).
Local Abbreviation download :=
  (download_file path_name path_suffix percent_ge fmt_percent).

(** *** Which exception leaves the [try] block *)

Lemma chunk_step_outcome total st c :
  (chunk_do total st c).2 =
  if decide (chunk_len c = 0%N) then None else chunk_write c.
Proof.
  unfold chunk_step. case_decide; [done|].
  destruct (chunk_write c); [done|].
  case_decide.
  - by destruct (percent_ge _ _ _).
  - by case_decide.
Qed.

Lemma stream_outcome total cs fin :
  ∀ st, (read total st cs fin).2 =
        match first_write_error cs with Some e => Some e | None => fin end.
Proof.
  induction cs as [|c cs IH]; intros st; simpl; [done|].
  pose proof (chunk_step_outcome total st c) as Hc.
  destruct (chunk_do total st c) as [st' [e|]]; simpl in Hc.
  - case_decide; [done|]. by rewrite <- Hc.
  - rewrite IH. case_decide; [done|]. by rewrite <- Hc.
Qed.

Lemma attempt_outcome destination g :
  (try_block destination g).2 = arising g.
Proof.
  unfold attempt, arising. destruct g as [e|r]; [done|].
  destruct (raise_for_status r); [done|]. unfold receive.
  destruct (content_length r) as [e|total]; [done|].
  destruct (open_destination r); [done|].
  pose proof (stream_outcome total (body r) (body_end r)
    {| downloaded := 0; next_percent_log := 5;
       trace :=
         [Log ("Starting download: " +:+ path_name destination);
          Log ("Target path: " +:+ destination);
          Log ("Extension: " +:+
               (if decide (path_suffix destination = EmptyString)
                then "none" else path_suffix destination));
          Status ("Retrieving: " +:+ path_name destination)];
       emitted := [] |}) as Hs.
  destruct (read _ _ _ _) as [st [e|]]; simpl in *; rewrite <- Hs; done.
Qed.

Lemma download_file_outcome destination g :
  (download destination g).2 =
  match arising g with Some e => Raised e | None => Returned end.
Proof.
  unfold download_file. rewrite <- (attempt_outcome destination g).
  by destruct (try_block destination g) as [st [e|]].
Qed.

End transfer_facts.

(** C8. Whatever exception arises in a transfer (from the request, the
    status check, the length header, the opening of the destination, a
    write, or the body iterator), [download_file] ends by logging
    ["Failed: "] with the exception's text, setting the status to
    ["Error: "] with the same text, signalling ["Ready"], in this order, and
    raises that same exception. *)
Theorem transfer_failure_reported
    (path_name path_suffix : string → string)
    (percent_ge : Z → Z → Z → bool) (fmt_percent : Z → Z → string)
    (destination : string) (g : get_result) (e : exn) :
  arising g = Some e →
  ∃ t, download_file path_name path_suffix percent_ge fmt_percent
         destination g =
       (t ++ [ Log ("Failed: " +:+ exn_msg e);
               Status ("Error: " +:+ exn_msg e);
               Ready "Ready" ],
        Raised e).
Proof.
  intros He. rewrite <- (attempt_outcome path_name path_suffix percent_ge
                          fmt_percent destination) in He.
  unfold download_file.
  destruct (attempt _ _ _ _ _ _) as [st [e'|]]; simpl in He; [|done].
  injection He as ->. by exists (trace st).
Qed.

Lemma progress_log_count_app t1 t2 :
  progress_log_count (t1 ++ t2) =
  (progress_log_count t1 + progress_log_count t2)%nat.
Proof. unfold progress_log_count. by rewrite filter_app, length_app. Qed.

Lemma body_length_nonneg cs : 0 ≤ body_length cs.
Proof. induction cs as [|c cs IH]; simpl; lia. Qed.

Section pacing.

Variable path_name : string → string.
Variable path_suffix : string → string.
Variable percent_ge : Z → Z → Z → bool.
Variable fmt_percent : Z → Z → string.

Local Abbreviation chunk_do := (chunk_step percent_ge fmt_percent).
Local Abbreviation read := (stream percent_ge fmt_percent).
Local Abbreviation ok := (paced percent_ge).

Lemma chunk_step_paced total base st c :
  total ≠ 0 → ok total base st →
  ok total base (chunk_do total st c).1 ∧
  downloaded (chunk_do total st c).1 ≤ downloaded st + Z.of_N (chunk_len c).
Proof.
  intros Ht (Hd & Hnext & Hem & Hcount). unfold chunk_step.
  case_decide as Hlen; [split; [done | simpl; lia]|].
  destruct (chunk_write c); [split; [done | simpl; lia]|].
  rewrite decide_True by done.
  destruct (percent_ge _ _ _) eqn:Hge; simpl.
  - split; [|lia]. unfold paced; simpl. split; [lia|]. split.
    { rewrite length_app. simpl. lia. }
    split.
    + intros i n d Hi.
      apply lookup_app_Some in Hi as [Hi | [Hi1 Hi2]].
      * destruct (Hem i n d Hi) as (? & ? & ?).
        split_and!; [done|done|lia|lia].
      * apply list_lookup_singleton_Some in Hi2 as [Hi2 [= <- <-]].
        rewrite Hnext in *. split_and!; [f_equal; lia | done | lia | lia].
    + rewrite progress_log_count_app, Hcount, length_app. simpl.
      change (progress_log_count _) with 1%nat. lia.
  - split; [|lia]. unfold paced; simpl. split; [lia|]. split; [done|].
    split; [|done]. intros i n d Hi.
    destruct (Hem i n d Hi) as (? & ? & ?). split_and!; [done|done|lia|lia].
Qed.

Lemma stream_paced total base cs fin :
  total ≠ 0 →
  ∀ st, ok total base st →
    ok total base (read total st cs fin).1 ∧
    downloaded (read total st cs fin).1 ≤ downloaded st + body_length cs.
Proof.
  intros Ht. induction cs as [|c cs IH]; intros st Hst; simpl.
  - split; [done | lia].
  - destruct (chunk_step_paced total base st c Ht Hst) as [Hok Hle].
    pose proof (body_length_nonneg cs).
    destruct (chunk_do total st c) as [st' [e|]]; simpl in *.
    + split; [done | lia].
    + destruct (IH st' Hok) as [Hok' Hle']. split; [done | lia].
Qed.

(** Events that are not percentage lines leave the pacing as it is. *)
Lemma paced_append total base st evs :
  progress_log_count evs = 0%nat → ok total base st →
  ok total base
     {| downloaded := downloaded st;
        next_percent_log := next_percent_log st;
        trace := trace st ++ evs;
        emitted := emitted st |}.
Proof.
  intros Hevs (Hd & Hnext & Hem & Hcount). unfold paced; simpl.
  split_and!; try done. rewrite progress_log_count_app. lia.
Qed.

Lemma attempt_paced destination r total :
  content_length r = inr total → total ≠ 0 →
  ok total 0
     (attempt path_name path_suffix percent_ge fmt_percent destination
              (GetReturns r)).1 ∧
  downloaded
    (attempt path_name path_suffix percent_ge fmt_percent destination
             (GetReturns r)).1 ≤ body_length (body r).
Proof.
  intros Hlen Ht. unfold attempt, receive. rewrite Hlen.
  pose proof (body_length_nonneg (body r)) as Hbody.
  match goal with
  | |- context [stream _ _ _ ?s _ _] => set (st0 := s)
  end.
  assert (ok total 0 st0) as H0.
  { unfold paced, st0; simpl. split_and!; done. }
  destruct (raise_for_status r); [by split|].
  destruct (open_destination r); [by split|].
  destruct (stream_paced total 0%nat (body r) (body_end r) Ht st0 H0)
    as [Hok Hle].
  change (downloaded st0) with 0 in Hle.
  destruct (read total st0 (body r) (body_end r)) as [st [e|]];
    simpl in *; [split; [done | lia]|].
  split; [|lia].
  apply (paced_append total 0%nat
           {| downloaded := downloaded st;
              next_percent_log := next_percent_log st;
              trace := trace st ++ [Log ("Saved: " +:+ destination)];
              emitted := emitted st |}); [done|].
  by apply (paced_append total 0%nat st).
Qed.

End pacing.

(** C9, as stated, fails: the bound of 20 lines does not hold for every
    response that declares a length.  With [Content-Length: 8192] and a body
    of 25 chunks of 8192 bytes, the percentage after the [k]-th chunk is
    [100 * k] (exact in binary floating point as well), the threshold then
    is [5 * k], and every chunk emits a line: 25 lines. *)
Lemma oversized_body_emits_25_lines :
  progress_log_count
    (download_file Sample.plain Sample.plain percent_ge_exact
       Sample.whole_percent "plugins/a.jar" Sample.oversized).1 = 25%nat.
Proof. vm_compute. reflexivity. Qed.

(** C9, amended.  For every transfer whose response declares a non-zero
    length, the percentage lines of the log are exactly the emissions of the
    chunk loop; the [i]-th of them (from 0) is emitted at threshold
    [5 * (i + 1)], when the percentage has reached that threshold; so the
    thresholds increase strictly and none is used twice.  When no percentage
    that the body can reach exceeds 100, that is when the bytes received
    never exceed the declared length, at most 20 lines are emitted. *)
Theorem progress_lines_paced
    (path_name path_suffix : string → string)
    (percent_ge : Z → Z → Z → bool) (fmt_percent : Z → Z → string)
    (destination : string) (r : response) (total : Z) :
  content_length r = inr total → total ≠ 0 →
  let lines :=
    progress_lines path_name path_suffix percent_ge fmt_percent
      destination (GetReturns r) in
  progress_log_count
    (download_file path_name path_suffix percent_ge fmt_percent
       destination (GetReturns r)).1 = length lines ∧
  (∀ i n d, lines !! i = Some (n, d) →
     n = 5 * (Z.of_nat i + 1) ∧ percent_ge d total n = true) ∧
  (∀ i j ni di nj dj,
     lines !! i = Some (ni, di) → lines !! j = Some (nj, dj) →
     (i < j)%nat → ni < nj) ∧
  ((∀ d n, 0 ≤ d ≤ total → percent_ge d total n = true → n ≤ 100) →
   body_length (body r) ≤ total → (length lines ≤ 20)%nat).
Proof.
  intros Hlen Ht lines.
  destruct (attempt_paced path_name path_suffix percent_ge fmt_percent
              destination r total Hlen Ht)
    as [(Hd & Hnext & Hem & Hcount) Hle].
  unfold lines, progress_lines, download_file.
  destruct (attempt _ _ _ _ _ _) as [st res]; simpl in *.
  split_and!.
  - destruct res as [e|]; simpl; [|done].
    rewrite progress_log_count_app, Hcount.
    change (progress_log_count (on_exception e)) with 0%nat. lia.
  - intros i n d Hi. destruct (Hem i n d Hi) as (? & ? & _). done.
  - intros i j ni di nj dj Hi Hj Hij.
    destruct (Hem i ni di Hi) as (-> & _).
    destruct (Hem j nj dj Hj) as (-> & _). lia.
  - intros Hcap Hbody.
    destruct (decide (length (emitted st) ≤ 20)%nat) as [|Hmany]; [done|].
    destruct (lookup_lt_is_Some_2 (emitted st) 20%nat) as [[n d] Hi]; [lia|].
    destruct (Hem 20%nat n d Hi) as (-> & Hge & Hd0 & Hd1).
    assert (5 * (Z.of_nat 20 + 1) ≤ 100); [|lia].
    apply (Hcap d); [lia | done].
Qed.

Lemma progress_lines_paced_witness :
  content_length Sample.megabyte = inr 1000000 ∧ 1000000 ≠ 0 ∧
  (length (progress_lines Sample.plain Sample.plain percent_ge_exact
             Sample.whole_percent "plugins/a.jar"
             (GetReturns Sample.megabyte)) ≤ 20)%nat.
Proof.
  assert (content_length Sample.megabyte = inr 1000000) as Hlen
    by reflexivity.
  assert (1000000 ≠ 0) as Ht by lia.
  split; [exact Hlen|]. split; [exact Ht|].
  apply (progress_lines_paced Sample.plain Sample.plain percent_ge_exact
           Sample.whole_percent "plugins/a.jar" Sample.megabyte 1000000
           Hlen Ht).
  - intros d n Hd Hge. unfold percent_ge_exact in Hge.
    apply bool_decide_eq_true in Hge. lia.
  - vm_compute. discriminate.
Defined.

(** The transfer of 1,000,000 bytes with a matching [Content-Length] logs
    20 percentage lines, at the thresholds 5, 10, ..., 100. *)
Example megabyte_progress :
  progress_log_count
    (download_file Sample.plain Sample.plain percent_ge_exact
       Sample.whole_percent "plugins/a.jar"
       (GetReturns Sample.megabyte)).1 = 20%nat ∧
  (progress_lines Sample.plain Sample.plain percent_ge_exact
     Sample.whole_percent "plugins/a.jar"
     (GetReturns Sample.megabyte)).*1 =
  [5; 10; 15; 20; 25; 30; 35; 40; 45; 50;
   55; 60; 65; 70; 75; 80; 85; 90; 95; 100].
Proof. split; vm_compute; reflexivity. Qed.

Lemma transfer_failure_reported_witness :
  arising Sample.not_found =
    Some (Exn "HTTPError" "404 Client Error: Not Found for url") ∧
  ∃ t, download_file Sample.plain Sample.plain percent_ge_exact
         Sample.whole_percent "plugins/a.jar" Sample.not_found =
       (t ++ [ Log "Failed: 404 Client Error: Not Found for url";
               Status "Error: 404 Client Error: Not Found for url";
               Ready "Ready" ],
        Raised (Exn "HTTPError" "404 Client Error: Not Found for url")).
Proof.
  assert (arising Sample.not_found =
          Some (Exn "HTTPError" "404 Client Error: Not Found for url"))
    as Ha by reflexivity.
  split; [exact Ha|].
  exact (transfer_failure_reported Sample.plain Sample.plain
           percent_ge_exact Sample.whole_percent "plugins/a.jar"
           Sample.not_found _ Ha).
Defined.

(** ** The batch worker *)

Lemma deliver_sinks a evs :
  sinks (foldl deliver a evs) = sinks a ++ evs ∧
  logs_dir (foldl deliver a evs) = logs_dir a.
Proof.
  revert a. induction evs as [|ev evs IH]; intros a; simpl.
  - by rewrite app_nil_r.
  - destruct (IH (deliver a ev)) as [-> ->].
    destruct ev; simpl; by rewrite <- app_assoc.
Qed.

Section worker_facts.

Variable path_name : string → string.
Variable path_suffix : string → string.
Variable percent_ge : Z → Z → Z → bool.
Variable fmt_percent : Z → Z → string.
Variable mkdir_error : option exn.
Variable write_error : option write_failure.
Variable missing_dir_error : exn.
Variable path_join : string → string → string.
Variable network : nat → item → get_result.
Variable download_dir : string.

Local Abbreviation move :=
  (transfer path_name path_suffix percent_ge fmt_percent path_join network
            download_dir).
Local Abbreviation loop :=
  (batch_loop path_name path_suffix percent_ge fmt_percent path_join
              network download_dir).
Local Abbreviation events :=
  (batch_events path_name path_suffix percent_ge fmt_percent path_join
                network download_dir).
Local Abbreviation all_ok :=
  (batch_ok path_name path_suffix percent_ge fmt_percent path_join network
            download_dir).

(** The loop visits every item, whatever the earlier transfers did. *)
Lemma batch_loop_spec count items :
  ∀ a ok seen idx,
  ∃ a', loop count (a, ok, seen) idx items =
          (a', ok && all_ok idx items, seen ++ items) ∧
        sinks a' = sinks a ++ events count idx items ∧
        logs_dir a' = logs_dir a.
Proof.
  induction items as [|selected rest IH]; intros a ok seen idx; simpl.
  - exists a. by rewrite andb_true_r, !app_nil_r.
  - unfold batch_step, raised.
    destruct (move idx selected) as [evs [|e]] eqn:Hmove; simpl.
    + edestruct IH as (a' & -> & Hs & Hd). exists a'.
      destruct (deliver_sinks
        (set_status a ("Starting download (" +:+ pretty idx +:+ "/" +:+
           pretty count +:+ "): " +:+ filename_of path_name selected))
        evs) as [Hs' Hd'].
      rewrite Hs, Hd, Hs', Hd'. simpl.
      by rewrite <- !app_assoc.
    + edestruct IH as (a' & -> & Hs & Hd). exists a'.
      destruct (deliver_sinks
        (set_status a ("Starting download (" +:+ pretty idx +:+ "/" +:+
           pretty count +:+ "): " +:+ filename_of path_name selected))
        evs) as [Hs' Hd'].
      rewrite Hs, Hd, Hs', Hd'. simpl.
      by rewrite andb_false_r, <- !app_assoc.
Qed.

Lemma batch_ok_true idx items :
  all_ok idx items = true ↔
  ∀ i it, items !! i = Some it → raised (move (idx + i) it) = false.
Proof.
  revert idx. induction items as [|selected rest IH]; intros idx; simpl.
  - split; [|done]. intros _ i it Hi. by rewrite lookup_nil in Hi.
  - rewrite andb_true_iff, negb_true_iff, IH. split.
    + intros [Hhd Htl] [|i] it Hi; simpl in Hi.
      * injection Hi as <-. by rewrite Nat.add_0_r.
      * rewrite Nat.add_succ_r. by apply (Htl i).
    + intros Hall. split.
      * specialize (Hall 0%nat selected eq_refl).
        by rewrite Nat.add_0_r in Hall.
      * intros i it Hi. specialize (Hall (S i) it Hi).
        by rewrite Nat.add_succ_r in Hall.
Qed.

End worker_facts.

Lemma save_log_returns
    (mkdir_error : option exn) (write_error : option write_failure)
    (missing_dir_error : exn)
    (a : app) (success : bool) :
  ∃ n a',
    save_log mkdir_error write_error missing_dir_error a success =
      Some (candidate (base_name success) n, a') ∧
    (∃ tail, sinks a' = sinks a ++ tail) ∧
    (write_error = None → is_Some (logs_dir a) ∨ mkdir_error = None →
     ∃ files, logs_dir a' = Some files ∧
       files !! candidate (base_name success) n = Some (get_log_text a)).
Proof.
  destruct (save_log_scan mkdir_error a success) as (n & Hscan & _).
  unfold save_log. rewrite Hscan. simpl.
  destruct (write_text _ _ _ _ _) as [[e remains]|files'] eqn:Hw;
    eexists n, _; (split; [reflexivity|]); simpl.
  - split; [eauto|]. intros -> Hdir. unfold write_text, ensure_dir in Hw.
    destruct (logs_dir a); [done|].
    destruct Hdir as [[? ?]| ->]; done.
  - split; [exists []; by rewrite app_nil_r|]. intros _ _.
    exists files'. split; [done|]. unfold write_text in Hw.
    destruct (ensure_dir mkdir_error (logs_dir a)); [|done].
    destruct write_error; [done|]. injection Hw as <-.
    apply lookup_insert_eq.
Qed.


(** A batch of three items whose second transfer fails: all three are
    attempted, the result is a failure and the log is [logerror1.txt]; with
    no failure it is [successlog1.txt]. *)
Example three_items_second_fails :
  (λ res, (attempted res, overall_success res, log_name res)) <$>
    worker Sample.plain Sample.plain percent_ge_exact Sample.whole_percent
      None None (Exn "FileNotFoundError" "No such file or directory")
      Sample.join Sample.second_fails "plugins" Sample.fresh_app
      Sample.catalog =
  Some (Sample.catalog, false, "logerror1.txt") ∧
  (λ res, (attempted res, overall_success res, log_name res)) <$>
    worker Sample.plain Sample.plain percent_ge_exact Sample.whole_percent
      None None (Exn "FileNotFoundError" "No such file or directory")
      Sample.join Sample.all_succeed "plugins" Sample.fresh_app
      Sample.catalog =
  Some (Sample.catalog, true, "successlog1.txt").
Proof. split; vm_compute; reflexivity. Qed.

(** With [logerror1.txt] present, an error-class call writes
    [logerror2.txt] and leaves the old file alone. *)
Example second_error_log :
  (λ r, (r.1, logs_dir r.2)) <$>
    save_log None None (Exn "FileNotFoundError" "No such file or directory")
      Sample.used_app false =
  Some ("logerror2.txt",
        Some (<["logerror2.txt" := "earlier" +:+ newline]>
                (<["logerror1.txt" := "old"]> ∅))).
Proof. vm_compute. reflexivity. Qed.

(** ** The Modrinth client *)

Section modrinth_facts.

Variable session_get : string → list (string * string) → reply.
Variable str_list : list string → string.

Lemma fetch_failed u params :
  failed (session_get u params) →
  ∃ e, fetch session_get u params = inl e.
Proof.
  unfold fetch, failed.
  destruct (session_get u params) as [e|[e|] [e'|v]]; eauto; done.
Qed.

Lemma try_return_total body fallback : ∃ v, try_return body fallback = Ret v.
Proof. destruct body; simpl; eauto. Qed.

End modrinth_facts.



(** ** Closing remarks on the reference order *)

(** The level-by-level description determines the order: two discovery
    orders from the same visited set and frontier are equal. *)
Lemma discovery_functional
    (download_items : list item) (deps_map : gmap string (list string))
    (seen : gset string) (frontier l1 l2 : list string) :
  discovery download_items deps_map seen frontier l1 →
  discovery download_items deps_map seen frontier l2 →
  l1 = l2.
Proof.
  intros H1. revert l2.
  induction H1 as [seen|seen frontier later Hne H1 IH]; intros l2 H2.
  - by inversion H2.
  - inversion H2 as [|? ? later' ? H2']; subst; [done|].
    f_equal. by apply IH.
Qed.

Example expand_cycle :
  expand Sample.catalog Sample.cycle ["A"] = Some [Sample.A; Sample.B].
Proof. vm_compute. reflexivity. Qed.

Example expand_with_missing :
  expand Sample.catalog Sample.with_missing ["A"] =
  Some [Sample.A; Sample.C; Sample.B].
Proof. vm_compute. reflexivity. Qed.

(** The selection is resolved in catalog order, whatever the order of the
    selected names. *)
Example expand_catalog_order :
  expand Sample.catalog ∅ ["C"; "A"] = Some [Sample.A; Sample.C].
Proof. vm_compute. reflexivity. Qed.

(** * Further properties *)

(** ** Closure and reachability of the expansion *)

Section expander_closure.

Variable download_items : list item.
Variable deps_map : gmap string (list string).

Local Abbreviation find := (find_item_by_name download_items).
Local Abbreviation visit := (visit_dep download_items).
Local Abbreviation step := (iteration download_items deps_map).
Local Abbreviation loop := (run download_items deps_map).
Local Abbreviation found := (discovered download_items).

Lemma loop_invariant_step (P : state → Prop) :
  (∀ st x rest, P st → to_process st = x :: rest → P (step st x rest)) →
  ∀ fuel st r, P st → loop fuel st = Some r → P r.
Proof.
  intros Hstep. induction fuel as [|fuel IH]; intros st r HP; simpl.
  - destruct (to_process st); [|done]. by intros [= <-].
  - destruct (to_process st) as [|x rest] eqn:Hq; [by intros [= <-]|].
    apply IH. by apply Hstep.
Qed.

Lemma discovered_covers seen ds d :
  d ∈ ds → is_Some (find d) → d ∈ seen ∨ d ∈ found seen ds.
Proof.
  revert seen. induction ds as [|x ds IH]; intros seen Hin Hf.
  - by apply elem_of_nil in Hin.
  - simpl. apply elem_of_cons in Hin as [->|Hin].
    + destruct (decide (x ∈ seen)) as [|Hx]; [by left|]. right.
      rewrite decide_True by done. left.
    + case_decide as Hx.
      * destruct (IH ({[x]} ∪ seen) Hin Hf) as [Hs|Hs].
        -- apply elem_of_union in Hs as [->%elem_of_singleton|Hs];
             [right; left | by left].
        -- right. by right.
      * by apply IH.
Qed.

Lemma discovered_subset seen ds d :
  d ∈ found seen ds → d ∈ ds ∧ (d ∉ seen) ∧ is_Some (find d).
Proof.
  revert seen. induction ds as [|x ds IH]; intros seen; simpl.
  - by intros ?%elem_of_nil.
  - case_decide as Hx.
    + intros [->|Hin]%elem_of_cons.
      * destruct Hx. split_and!; [left | done | done].
      * destruct (IH _ Hin) as (? & ? & ?).
        split_and!; [by right | set_solver | done].
    + intros Hin. destruct (IH _ Hin) as (? & ? & ?).
      split_and!; [by right | done | done].
Qed.

(** Effect of one turn of the loop on the queue and the visited set. *)
Lemma step_effect st x rest :
  to_process (step st x rest) =
    rest ++ found (processed st) (deps_of deps_map x) ∧
  processed (step st x rest) =
    list_to_set (found (processed st) (deps_of deps_map x)) ∪ processed st ∧
  popped (step st x rest) = popped st ++ [x] ∧
  names (extra_items (step st x rest)) =
    names (extra_items st) ++ found (processed st) (deps_of deps_map x).
Proof.
  rewrite step_deps_of.
  destruct (foldl_visit download_items (deps_of deps_map x)
              (pop st x rest)) as (its & lk & Hn & ->).
  simpl. split_and!; try done.
  unfold names in *. by rewrite fmap_app, Hn.
Qed.

(** Once a name has left the queue, its dependencies that are catalog
    names are all visited. *)
Lemma closure_invariant items :
  ∃ st, traverse download_items deps_map items = Some st ∧
    ∀ x d, x ∈ popped st → d ∈ deps_of deps_map x → is_Some (find d) →
           d ∈ processed st.
Proof.
  destruct (traverse_total download_items deps_map items) as [st Hst].
  exists st. split; [done|].
  eapply (loop_invariant_step
            (λ st, ∀ x d, x ∈ popped st → d ∈ deps_of deps_map x →
                          is_Some (find d) → d ∈ processed st));
    [| |exact Hst].
  - clear. intros st x rest HP Hq y d Hy Hd Hf.
    destruct (step_effect st x rest) as (_ & -> & Hpop & _).
    rewrite Hpop in Hy.
    apply elem_of_app in Hy as [Hy | ->%list_elem_of_singleton].
    + apply elem_of_union. right. by apply (HP y).
    + destruct (discovered_covers (processed st) _ d Hd Hf).
      * by apply elem_of_union; right.
      * apply elem_of_union. left. by apply elem_of_list_to_set.
  - intros x d Hx. by apply elem_of_nil in Hx.
Qed.

(** Everything visited is reached from the requested names. *)
Lemma reach_invariant items :
  ∃ st, traverse download_items deps_map items = Some st ∧
    ∀ n, n ∈ processed st → reaches deps_map (names items) n.
Proof.
  destruct (traverse_total download_items deps_map items) as [st Hst].
  exists st. split; [done|].
  eapply proj1.
  eapply (loop_invariant_step
            (λ st, (∀ n, n ∈ processed st →
                         reaches deps_map (names items) n)
                   ∧ ∀ n, n ∈ to_process st → n ∈ processed st));
    [| |exact Hst].
  - clear. intros st x rest [Hreach Hq] Hx.
    destruct (step_effect st x rest) as (-> & -> & _ & _).
    assert (reaches deps_map (names items) x) as Hrx.
    { apply Hreach, Hq. rewrite Hx. left. }
    split.
    + intros n [Hn | Hn]%elem_of_union; [|by apply Hreach].
      apply elem_of_list_to_set, discovered_subset in Hn as (Hn & _).
      unfold deps_of in Hn.
      destruct (deps_map !! x) as [ds|] eqn:Hds; simpl in Hn;
        [|by apply elem_of_nil in Hn].
      by apply (reaches_dep _ _ x ds).
    + intros n [Hn | Hn]%elem_of_app.
      * apply elem_of_union. right. apply Hq. rewrite Hx. by right.
      * apply elem_of_union. left. by apply elem_of_list_to_set.
  - simpl. split.
    + intros n Hn%elem_of_list_to_set. by apply reaches_root.
    + intros n Hn. by apply elem_of_list_to_set.
Qed.

End expander_closure.

Section expander_extras.

Variable download_items : list item.
Variable deps_map : gmap string (list string).

Local Abbreviation find := (find_item_by_name download_items).
Local Abbreviation step := (iteration download_items deps_map).
Local Abbreviation found := (discovered download_items).

Lemma find_is_Some n : is_Some (find n) ↔ n ∈ names download_items.
Proof.
  unfold find_item_by_name. split.
  - intros [it Hit].
    destruct (decide (n ∈ names download_items)) as [|Hout]; [done|].
    apply find_in_None in Hout. congruence.
  - intros Hn. destruct (find_in download_items n) eqn:Hf; [eauto|].
    by apply find_in_None in Hf.
Qed.

Lemma resolve_closed items :
  ∃ r, resolve_dependencies download_items deps_map items = Some r ∧
    ∀ n ds d, n ∈ names r → deps_map !! n = Some ds → d ∈ ds →
              d ∈ names download_items → d ∈ names r.
Proof.
  destruct (resolve_dependencies_spec download_items deps_map items)
    as (st & Hst & Hr & (Hp & _ & _ & _ & _ & _ & Hq) & Hend).
  destruct (closure_invariant download_items deps_map items)
    as (st' & Hst' & Hclosed).
  assert (st' = st) as -> by congruence.
  exists (items ++ extra_items st). split; [done|].
  rewrite Hend, app_nil_r in Hq.
  intros n ds d Hn Hds Hd Hcat.
  unfold names in *. rewrite fmap_app in *. rewrite <- Hq in Hn.
  assert (d ∈ processed st) as Hin.
  { apply (Hclosed n d Hn); [|by apply find_is_Some].
    unfold deps_of. by rewrite Hds. }
  rewrite Hp in Hin. set_solver.
Qed.

Lemma resolve_reached items :
  ∃ r, resolve_dependencies download_items deps_map items = Some r ∧
    ∀ n, n ∈ names r → reaches deps_map (names items) n.
Proof.
  destruct (resolve_dependencies_spec download_items deps_map items)
    as (st & Hst & Hr & (Hp & _) & _).
  destruct (reach_invariant download_items deps_map items)
    as (st' & Hst' & Hreach).
  assert (st' = st) as -> by congruence.
  exists (items ++ extra_items st). split; [done|].
  intros n Hn. apply Hreach. rewrite Hp.
  unfold names in *. rewrite fmap_app in Hn. set_solver.
Qed.

Lemma discovered_nil seen ds :
  (∀ d, d ∈ ds → d ∈ seen ∨ d ∉ names download_items) →
  found seen ds = [].
Proof.
  induction ds as [|x ds IH]; intros Hds; simpl; [done|].
  rewrite decide_False.
  - apply IH. intros d Hd. apply Hds. by right.
  - intros [Hx Hf%find_is_Some].
    destruct (Hds x) as [?|?]; [left|done|done].
Qed.

Lemma resolve_closed_selection items :
  (∀ n ds d, n ∈ names items → deps_map !! n = Some ds → d ∈ ds →
             d ∈ names items ∨ d ∉ names download_items) →
  resolve_dependencies download_items deps_map items = Some items.
Proof.
  intros Hclosed.
  destruct (resolve_dependencies_spec download_items deps_map items)
    as (st & Hst & Hr & _ & _).
  rewrite Hr. f_equal.
  assert (extra_items st = []) as ->; [|by rewrite app_nil_r].
  eapply proj1.
  eapply (loop_invariant_step download_items deps_map
            (λ st, extra_items st = [] ∧
                   processed st = list_to_set (names items) ∧
                   ∀ n, n ∈ to_process st → n ∈ names items));
    [| |exact Hst].
  - intros st0 x rest (Hex & Hp & Hq) Hx.
    destruct (step_effect download_items deps_map st0 x rest)
      as (Hq' & Hp' & _ & Hex').
    assert (found (processed st0) (deps_of deps_map x) = []) as Hnil.
    { apply discovered_nil. intros d Hd. unfold deps_of in Hd.
      destruct (deps_map !! x) as [ds|] eqn:Hds; simpl in Hd;
        [|by apply elem_of_nil in Hd].
      destruct (Hclosed x ds d) as [Hin|Hout]; [|done|done| |by right].
      - apply Hq. rewrite Hx. left.
      - left. rewrite Hp. by apply elem_of_list_to_set. }
    rewrite Hnil in *. rewrite Hex, app_nil_r in Hex'.
    rewrite app_nil_r in Hq'. simpl in Hp'. split_and!.
    + unfold names in Hex'. by apply fmap_nil_inv in Hex'.
    + rewrite Hp', Hp. set_solver.
    + intros n Hn. rewrite Hq' in Hn. apply Hq. rewrite Hx. by right.
  - simpl. split_and!; done.
Qed.

End expander_extras.

(** X1. The expansion result is closed under the dependency map: every
    dependency of a name in the result that is a catalog name is itself in
    the result. *)
Theorem expansion_closed
    (download_items : list item) (deps_map : gmap string (list string))
    (items : list item) :
  ∃ r, resolve_dependencies download_items deps_map items = Some r ∧
    ∀ n ds d, n ∈ names r → deps_map !! n = Some ds → d ∈ ds →
              d ∈ names download_items → d ∈ names r.
Proof. apply resolve_closed. Qed.

(** X2. Nothing is added without cause: every name in the expansion result
    is reached from a requested name along entries of the dependency
    map. *)
Theorem expansion_reached
    (download_items : list item) (deps_map : gmap string (list string))
    (items : list item) :
  ∃ r, resolve_dependencies download_items deps_map items = Some r ∧
    ∀ n, n ∈ names r → reaches deps_map (names items) n.
Proof. apply resolve_reached. Qed.

(** X3. A request that already contains every catalog dependency of its
    items is returned as it is. *)
Theorem closed_selection_unchanged
    (download_items : list item) (deps_map : gmap string (list string))
    (items : list item) :
  (∀ n ds d, n ∈ names items → deps_map !! n = Some ds → d ∈ ds →
             d ∈ names items ∨ d ∉ names download_items) →
  resolve_dependencies download_items deps_map items = Some items.
Proof. apply resolve_closed_selection. Qed.

Lemma closed_selection_unchanged_witness :
  (∀ n ds d, n ∈ names [Sample.A; Sample.B] →
             Sample.cycle !! n = Some ds → d ∈ ds →
             d ∈ names [Sample.A; Sample.B] ∨ d ∉ names Sample.catalog) ∧
  resolve_dependencies Sample.catalog Sample.cycle [Sample.A; Sample.B] =
    Some [Sample.A; Sample.B].
Proof.
  assert (∀ n ds d, n ∈ names [Sample.A; Sample.B] →
             Sample.cycle !! n = Some ds → d ∈ ds →
             d ∈ names [Sample.A; Sample.B] ∨ d ∉ names Sample.catalog)
    as Hclosed.
  { intros n ds d Hn Hds Hd. left. simpl in Hn.
    apply elem_of_cons in Hn as [->|Hn].
    - vm_compute in Hds. injection Hds as <-.
      apply list_elem_of_singleton in Hd as ->. right. left.
    - apply list_elem_of_singleton in Hn as ->.
      vm_compute in Hds. injection Hds as <-.
      apply list_elem_of_singleton in Hd as ->. left. }
  split; [exact Hclosed|].
  exact (closed_selection_unchanged Sample.catalog Sample.cycle
           [Sample.A; Sample.B] Hclosed).
Defined.

(** X4. Expanding is idempotent: expanding the result of an expansion
    returns the same list. *)
Theorem expansion_idempotent
    (download_items : list item) (deps_map : gmap string (list string))
    (items : list item) :
  ∃ r, resolve_dependencies download_items deps_map items = Some r ∧
       resolve_dependencies download_items deps_map r = Some r.
Proof.
  destruct (resolve_closed download_items deps_map items)
    as (r & Hr & Hclosed).
  exists r. split; [done|].
  apply resolve_closed_selection. intros n ds d Hn Hds Hd.
  destruct (decide (d ∈ names download_items)); [left|by right].
  by apply (Hclosed n ds d).
Qed.

(** X5. The confirmed list is the catalog with the unselected entries
    removed: it keeps the catalog's order, holds exactly the catalog
    entries whose name is selected, and so does not depend on the order or
    repetition of the selected names. *)
Theorem selection_in_catalog_order
    (download_items : list item) (selected_items : list string) :
  items_to_download download_items selected_items `sublist_of`
    download_items ∧
  (∀ it, it ∈ items_to_download download_items selected_items ↔
         it ∈ download_items ∧ name it ∈ selected_items) ∧
  (∀ other, (∀ n, n ∈ selected_items ↔ n ∈ other) →
            items_to_download download_items other =
            items_to_download download_items selected_items).
Proof.
  unfold items_to_download. split_and!.
  - apply sublist_filter.
  - intros it. rewrite list_elem_of_filter. tauto.
  - intros other Hsame. apply list_filter_iff. intros it. symmetry.
    apply Hsame.
Qed.

(** ** Shape of a transfer's trace *)

Section trace_shape.

Variable path_name : string → string.
Variable path_suffix : string → string.
Variable percent_ge : Z → Z → Z → bool.
Variable fmt_percent : Z → Z → string.

Local Abbreviation chunk_do := (chunk_step percent_ge fmt_percent).
Local Abbreviation read := (stream percent_ge fmt_percent).
Local Abbreviation try_block :=
  (attempt path_name path_suffix percent_ge fmt_percent).
Local Abbreviation download :=
  (download_file path_name path_suffix percent_ge fmt_percent).
Local Abbreviation start := (opening path_name path_suffix).

(** A chunk adds progress messages only; with no declared total they all go
    to the status line. *)
Lemma chunk_step_trace total st c :
  ∃ mid, trace (chunk_do total st c).1 = trace st ++ mid ∧
         Forall (λ ev, is_progress_event ev = true) mid ∧
         (total = 0 → log_of mid = []).
Proof.
  unfold chunk_step.
  case_decide; [exists []; by rewrite app_nil_r|].
  destruct (chunk_write c); [exists []; by rewrite app_nil_r|].
  case_decide as Ht.
  - destruct (percent_ge _ _ _); simpl.
    + eexists. split; [done|]. split; [|done].
      repeat constructor.
    + exists []. by rewrite app_nil_r.
  - case_decide; simpl.
    + eexists. split; [done|]. split; [|done]. repeat constructor.
    + exists []. by rewrite app_nil_r.
Qed.

Lemma log_of_app t1 t2 : log_of (t1 ++ t2) = log_of t1 ++ log_of t2.
Proof. unfold log_of. apply omap_app. Qed.

Lemma stream_trace total cs fin :
  ∀ st, ∃ mid,
    trace (read total st cs fin).1 = trace st ++ mid ∧
    Forall (λ ev, is_progress_event ev = true) mid ∧
    (total = 0 → log_of mid = []).
Proof.
  induction cs as [|c cs IH]; intros st; simpl.
  - exists []. by rewrite app_nil_r.
  - destruct (chunk_step_trace total st c) as (m1 & H1 & Hp1 & Hl1).
    destruct (chunk_do total st c) as [st' [e|]]; simpl in *.
    + by exists m1.
    + destruct (IH st') as (m2 & H2 & Hp2 & Hl2).
      exists (m1 ++ m2). rewrite H2, H1, <- app_assoc.
      split; [done|]. split; [by apply Forall_app|].
      intros Ht. by rewrite log_of_app, Hl1, Hl2.
Qed.

(** The trace of the [try] block: the opening, progress messages, and,
    when nothing was raised, the three closing calls. *)
Lemma attempt_trace destination g :
  ∃ mid,
    Forall (λ ev, is_progress_event ev = true) mid ∧
    (match g with
     | GetReturns r => content_length r = inr 0 ∨ is_Some (raise_for_status r)
     | GetRaises _ => True
     end → log_of mid = []) ∧
    trace (try_block destination g).1 =
      start destination ++ mid ++
      match (try_block destination g).2 with
      | Some _ => []
      | None => [ Log ("Saved: " +:+ destination);
                  Status ("Finished: " +:+ path_name destination);
                  Ready "Ready" ]
      end.
Proof.
  unfold attempt. fold (start destination).
  destruct g as [e|r]; simpl; [by exists []|].
  destruct (raise_for_status r) as [e|] eqn:Hs; simpl; [by exists []|].
  unfold receive.
  destruct (content_length r) as [e|total] eqn:Hlen; simpl; [by exists []|].
  destruct (open_destination r); simpl; [by exists []|].
  match goal with
  | |- context [stream _ _ _ ?s _ _] => set (st0 := s)
  end.
  destruct (stream_trace total (body r) (body_end r) st0)
    as (mid & Hmid & Hp & Hl).
  destruct (read total st0 (body r) (body_end r)) as [st [e|]];
    simpl in *; exists mid; rewrite Hmid; simpl.
  - split; [done|]. split; [|by rewrite app_nil_r].
    intros [[= ->]|[? ?]]; [by apply Hl | done].
  - split; [done|]. split; [|by rewrite <- !app_assoc].
    intros [[= ->]|[? ?]]; [by apply Hl | done].
Qed.

Lemma download_file_trace destination g :
  ∃ mid,
    Forall (λ ev, is_progress_event ev = true) mid ∧
    (match g with
     | GetReturns r => content_length r = inr 0 ∨ is_Some (raise_for_status r)
     | GetRaises _ => True
     end → log_of mid = []) ∧
    download destination g =
      match arising g with
      | None =>
          (start destination ++ mid ++
             [ Log ("Saved: " +:+ destination);
               Status ("Finished: " +:+ path_name destination);
               Ready "Ready" ], Returned)
      | Some e =>
          (start destination ++ mid ++
             [ Log ("Failed: " +:+ exn_msg e);
               Status ("Error: " +:+ exn_msg e);
               Ready "Ready" ], Raised e)
      end.
Proof.
  destruct (attempt_trace destination g) as (mid & Hp & Hl & Ht).
  exists mid. split; [done|]. split; [done|].
  rewrite <- (attempt_outcome path_name path_suffix percent_ge fmt_percent
               destination g).
  unfold download_file.
  destruct (try_block destination g) as [st [e|]]; simpl in *;
    rewrite Ht; [|done].
  rewrite app_nil_r. unfold on_exception. simpl.
  by rewrite <- ?app_assoc.
Qed.

End trace_shape.

Section transfer_extras.

Variable path_name : string → string.
Variable path_suffix : string → string.
Variable percent_ge : Z → Z → Z → bool.
Variable fmt_percent : Z → Z → string.

Local Abbreviation chunk_do := (chunk_step percent_ge fmt_percent).
Local Abbreviation read := (stream percent_ge fmt_percent).
Local Abbreviation try_block :=
  (attempt path_name path_suffix percent_ge fmt_percent).

Lemma stream_skip_empty total cs fin :
  ∀ st, read total st (filter (λ c, chunk_len c ≠ 0%N) cs) fin =
        read total st cs fin.
Proof.
  induction cs as [|c cs IH]; intros st; [done|].
  destruct (decide (chunk_len c = 0%N)) as [Hc|Hc].
  - rewrite filter_cons_False by (intros ?; done). simpl.
    unfold chunk_step. rewrite decide_True by done. apply IH.
  - rewrite filter_cons_True by done. simpl.
    destruct (chunk_do total st c) as [st' [e|]]; [done|]. apply IH.
Qed.

Lemma attempt_skip_empty destination r :
  try_block destination
    (GetReturns (with_body r (filter (λ c, chunk_len c ≠ 0%N) (body r)))) =
  try_block destination (GetReturns r).
Proof.
  unfold attempt, receive, with_body. simpl.
  destruct (raise_for_status r); [done|].
  destruct (content_length r) as [e|total]; [done|].
  destruct (open_destination r); [done|].
  by rewrite stream_skip_empty.
Qed.

Lemma chunk_step_counts total st c :
  (chunk_do total st c).2 = None →
  downloaded (chunk_do total st c).1 = downloaded st + Z.of_N (chunk_len c).
Proof.
  unfold chunk_step. case_decide as Hc; [simpl; lia|].
  destruct (chunk_write c); [done|]. intros _.
  case_decide; [by destruct (percent_ge _ _ _)|]. by case_decide.
Qed.

Lemma stream_counts total cs fin :
  ∀ st, (read total st cs fin).2 = None →
        downloaded (read total st cs fin).1 = downloaded st + body_length cs.
Proof.
  induction cs as [|c cs IH]; intros st; simpl; [lia|].
  pose proof (chunk_step_counts total st c) as Hc.
  destruct (chunk_do total st c) as [st' [e|]]; simpl in *; [done|].
  intros Hnone. rewrite (IH st' Hnone), Hc by done. lia.
Qed.

Lemma attempt_counts destination r :
  arising (GetReturns r) = None →
  downloaded (try_block destination (GetReturns r)).1 = body_length (body r).
Proof.
  intros Hnone.
  rewrite <- (attempt_outcome path_name path_suffix percent_ge fmt_percent
               destination) in Hnone.
  revert Hnone. unfold attempt, receive.
  destruct (raise_for_status r); [done|].
  destruct (content_length r) as [e|total]; [done|].
  destruct (open_destination r); [done|].
  match goal with
  | |- context [stream _ _ _ ?s _ _] => set (st0 := s)
  end.
  pose proof (stream_counts total (body r) (body_end r) st0) as Hc.
  destruct (read total st0 (body r) (body_end r)) as [st [e|]];
    simpl in *; [done|].
  intros _. by rewrite Hc.
Qed.

Lemma chunk_step_one_line total st c :
  (length (emitted (chunk_do total st c).1) ≤
   length (emitted st) +
   length (filter (λ c, chunk_len c ≠ 0%N) [c]))%nat.
Proof.
  unfold chunk_step. case_decide as Hc; [simpl; lia|].
  rewrite filter_cons_True by done. simpl.
  destruct (chunk_write c); [simpl; lia|].
  case_decide.
  - destruct (percent_ge _ _ _); simpl; [rewrite length_app; simpl|]; lia.
  - case_decide; simpl; lia.
Qed.

Lemma stream_one_line total cs fin :
  ∀ st, (length (emitted (read total st cs fin).1) ≤
         length (emitted st) +
         length (filter (λ c, chunk_len c ≠ 0%N) cs))%nat.
Proof.
  induction cs as [|c cs IH]; intros st; simpl; [lia|].
  pose proof (chunk_step_one_line total st c) as Hc.
  change (c :: cs) with ([c] ++ cs). rewrite filter_app, length_app.
  destruct (chunk_do total st c) as [st' [e|]]; simpl in *; [lia|].
  pose proof (IH st'). lia.
Qed.

Lemma attempt_one_line destination r :
  (length (emitted (try_block destination (GetReturns r)).1) ≤
   length (filter (λ c, chunk_len c ≠ 0%N) (body r)))%nat.
Proof.
  unfold attempt, receive.
  destruct (raise_for_status r); [simpl; lia|].
  destruct (content_length r) as [e|total]; [simpl; lia|].
  destruct (open_destination r); [simpl; lia|].
  match goal with
  | |- context [stream _ _ _ ?s _ _] => set (st0 := s)
  end.
  pose proof (stream_one_line total (body r) (body_end r) st0) as Hc.
  destruct (read total st0 (body r) (body_end r)) as [st [e|]];
    simpl in *; lia.
Qed.

End transfer_extras.

(** X6. A transfer in which nothing raises returns normally, and its calls
    are the four opening calls, then progress messages only, then
    ["Saved: "] to the log, ["Finished: "] to the status line and ["Ready"]
    to the readiness sink. *)
Theorem transfer_success_trace
    (path_name path_suffix : string → string)
    (percent_ge : Z → Z → Z → bool) (fmt_percent : Z → Z → string)
    (destination : string) (g : get_result) :
  arising g = None →
  ∃ mid,
    Forall (λ ev, is_progress_event ev = true) mid ∧
    download_file path_name path_suffix percent_ge fmt_percent
      destination g =
    (opening path_name path_suffix destination ++ mid ++
       [ Log ("Saved: " +:+ destination);
         Status ("Finished: " +:+ path_name destination);
         Ready "Ready" ],
     Returned).
Proof.
  intros Hnone.
  destruct (download_file_trace path_name path_suffix percent_ge
              fmt_percent destination g) as (mid & Hp & _ & Hd).
  rewrite Hnone in Hd. by exists mid.
Qed.

Lemma transfer_success_trace_witness :
  arising Sample.small = None ∧
  ∃ mid,
    Forall (λ ev, is_progress_event ev = true) mid ∧
    download_file Sample.plain Sample.plain percent_ge_exact
      Sample.whole_percent "plugins/a.jar" Sample.small =
    (opening Sample.plain Sample.plain "plugins/a.jar" ++ mid ++
       [ Log ("Saved: " +:+ "plugins/a.jar");
         Status ("Finished: " +:+ Sample.plain "plugins/a.jar");
         Ready "Ready" ],
     Returned).
Proof.
  assert (arising Sample.small = None) as Hnone by reflexivity.
  split; [exact Hnone|].
  exact (transfer_success_trace Sample.plain Sample.plain percent_ge_exact
           Sample.whole_percent "plugins/a.jar" Sample.small Hnone).
Defined.

(** X7. Every transfer, failed or not, signals readiness exactly once, and
    that signal is its last call. *)
Theorem readiness_signalled_once
    (path_name path_suffix : string → string)
    (percent_ge : Z → Z → Z → bool) (fmt_percent : Z → Z → string)
    (destination : string) (g : get_result) :
  ∃ t,
    (download_file path_name path_suffix percent_ge fmt_percent
       destination g).1 = t ++ [Ready "Ready"] ∧
    ∀ m, Ready m ∉ t.
Proof.
  destruct (download_file_trace path_name path_suffix percent_ge
              fmt_percent destination g) as (mid & Hp & _ & Hd).
  assert (∀ m a b, Ready m ∉
            opening path_name path_suffix destination ++ mid ++
            [Log a; Status b]) as Hfree.
  { intros m a b [Hin | [Hin | Hin]%elem_of_app]%elem_of_app.
    - unfold opening in Hin. set_solver.
    - rewrite Forall_forall in Hp. by specialize (Hp _ Hin).
    - set_solver. }
  rewrite Hd. destruct (arising g) as [e|]; simpl.
  - exists (opening path_name path_suffix destination ++ mid ++
            [Log ("Failed: " +:+ exn_msg e);
             Status ("Error: " +:+ exn_msg e)]).
    split; [by rewrite <- !app_assoc|]. intros m. apply Hfree.
  - exists (opening path_name path_suffix destination ++ mid ++
            [Log ("Saved: " +:+ destination);
             Status ("Finished: " +:+ path_name destination)]).
    split; [by rewrite <- !app_assoc|]. intros m. apply Hfree.
Qed.

(** X8. When the response declares no length (or the length 0), progress
    goes to the status line only: the log receives the three opening lines
    and the final ["Saved: "] or ["Failed: "] line, nothing else. *)
Theorem unknown_length_log
    (path_name path_suffix : string → string)
    (percent_ge : Z → Z → Z → bool) (fmt_percent : Z → Z → string)
    (destination : string) (r : response) :
  content_length r = inr 0 →
  log_of (download_file path_name path_suffix percent_ge fmt_percent
            destination (GetReturns r)).1 =
  log_of (opening path_name path_suffix destination) ++
  [ match arising (GetReturns r) with
    | None => "Saved: " +:+ destination
    | Some e => "Failed: " +:+ exn_msg e
    end ].
Proof.
  intros Hlen.
  destruct (download_file_trace path_name path_suffix percent_ge
              fmt_percent destination (GetReturns r))
    as (mid & _ & Hl & Hd).
  rewrite Hd.
  destruct (arising (GetReturns r)); cbn [fst];
    rewrite !log_of_app, Hl by (by left); done.
Qed.

Lemma unknown_length_log_witness :
  content_length Fixture.unsized = inr 0 ∧
  log_of (download_file Sample.plain Sample.plain percent_ge_exact
            Sample.whole_percent "plugins/a.jar"
            (GetReturns Fixture.unsized)).1 =
  log_of (opening Sample.plain Sample.plain "plugins/a.jar") ++
  [ "Saved: " +:+ "plugins/a.jar" ].
Proof.
  assert (content_length Fixture.unsized = inr 0) as Hlen by reflexivity.
  split; [exact Hlen|].
  exact (unknown_length_log Sample.plain Sample.plain percent_ge_exact
           Sample.whole_percent "plugins/a.jar" Fixture.unsized Hlen).
Defined.

(** X9. Zero-length chunks are skipped without effect: a response and the
    same response without its empty chunks give the same calls, the same
    outcome and the same loop state. *)
Theorem empty_chunks_ignored
    (path_name path_suffix : string → string)
    (percent_ge : Z → Z → Z → bool) (fmt_percent : Z → Z → string)
    (destination : string) (r : response) :
  let trimmed :=
    with_body r (filter (λ c, chunk_len c ≠ 0%N) (body r)) in
  attempt path_name path_suffix percent_ge fmt_percent destination
    (GetReturns trimmed) =
  attempt path_name path_suffix percent_ge fmt_percent destination
    (GetReturns r) ∧
  download_file path_name path_suffix percent_ge fmt_percent destination
    (GetReturns trimmed) =
  download_file path_name path_suffix percent_ge fmt_percent destination
    (GetReturns r).
Proof.
  intros trimmed. unfold download_file, trimmed.
  by rewrite attempt_skip_empty.
Qed.

(** X10. When a transfer completes, the byte counter equals the total
    length of the chunks received. *)
Theorem byte_counter_total
    (path_name path_suffix : string → string)
    (percent_ge : Z → Z → Z → bool) (fmt_percent : Z → Z → string)
    (destination : string) (r : response) :
  arising (GetReturns r) = None →
  downloaded
    (attempt path_name path_suffix percent_ge fmt_percent destination
       (GetReturns r)).1 = body_length (body r).
Proof. apply attempt_counts. Qed.

Lemma byte_counter_total_witness :
  arising (GetReturns Sample.megabyte) = None ∧
  downloaded
    (attempt Sample.plain Sample.plain percent_ge_exact
       Sample.whole_percent "plugins/a.jar"
       (GetReturns Sample.megabyte)).1 = body_length (body Sample.megabyte).
Proof.
  assert (arising (GetReturns Sample.megabyte) = None) as Hnone
    by (vm_compute; reflexivity).
  split; [exact Hnone|].
  exact (byte_counter_total Sample.plain Sample.plain percent_ge_exact
           Sample.whole_percent "plugins/a.jar" Sample.megabyte Hnone).
Defined.

(** X11. A chunk emits at most one percentage line, so a transfer logs no
    more percentage lines than it receives non-empty chunks: a body that
    arrives in few chunks gets few lines, whatever its length. *)
Theorem one_line_per_chunk
    (path_name path_suffix : string → string)
    (percent_ge : Z → Z → Z → bool) (fmt_percent : Z → Z → string)
    (destination : string) (r : response) :
  (length (progress_lines path_name path_suffix percent_ge fmt_percent
             destination (GetReturns r)) ≤
   length (filter (λ c, chunk_len c ≠ 0%N) (body r)))%nat.
Proof. apply attempt_one_line. Qed.

(** ** The recorder, continued *)

Lemma append_assoc (s t u : string) : (s +:+ t) +:+ u = s +:+ (t +:+ u).
Proof.
  induction s as [|c s IH]; [done|].
  by rewrite !append_cons, IH.
Qed.

Lemma join_lines_snoc (l : list string) (x m : string) :
  join_lines ((x :: l) ++ [m]) = join_lines (x :: l) +:+ newline +:+ m.
Proof.
  revert x. induction l as [|y l IH]; intros x; [done|].
  change (join_lines ((x :: y :: l) ++ [m]))
    with (x +:+ newline +:+ join_lines ((y :: l) ++ [m])).
  rewrite IH.
  change (join_lines (x :: y :: l))
    with (x +:+ newline +:+ join_lines (y :: l)).
  by rewrite !append_assoc.
Qed.

Lemma lines_text_snoc (l : list string) (m : string) :
  lines_text (l ++ [m]) = lines_text l +:+ m +:+ newline.
Proof.
  unfold lines_text. destruct l as [|x l]; [done|].
  rewrite join_lines_snoc. simpl. by rewrite !append_assoc.
Qed.

(** X12. Logging a message extends the text of the log by that message and
    a newline; after [reset_log] the text is empty. *)
Theorem log_text_append (a : app) (message : string) :
  get_log_text (log a message) = get_log_text a +:+ message +:+ newline ∧
  get_log_text (reset_log a) = EmptyString.
Proof. split; [apply lines_text_snoc | done]. Qed.

Section recorder_extras.

Variable mkdir_error : option exn.
Variable missing_dir_error : exn.

(** A save whose write succeeds inserts the text under a name that was
    free. *)
Lemma save_log_effect (a : app) (success : bool) :
  is_Some (logs_dir a) ∨ mkdir_error = None →
  ∃ n files,
    ensure_dir mkdir_error (logs_dir a) = Some files ∧
    (candidate (base_name success) n ∉ dom files) ∧
    save_log mkdir_error None missing_dir_error a success =
      Some (candidate (base_name success) n,
            {| log_lines := log_lines a;
               logs_dir :=
                 Some (<[candidate (base_name success) n :=
                           get_log_text a]> files);
               sinks := sinks a |}).
Proof.
  intros Hdir.
  destruct (save_log_scan mkdir_error a success)
    as (n & Hscan & _ & Hfree & _).
  assert (∃ files, ensure_dir mkdir_error (logs_dir a) = Some files)
    as [files Hfiles].
  { unfold ensure_dir. destruct (logs_dir a); [eauto|].
    destruct Hdir as [[? ?]| ->]; [done | eauto]. }
  exists n, files. split; [done|]. split.
  - rewrite <- (file_exists_ensure_dir mkdir_error), Hfiles in Hfree.
    simpl in Hfree. by apply bool_decide_eq_false in Hfree.
  - unfold save_log. rewrite Hscan, Hfiles. done.
Qed.

Lemma candidate_class_ne (success : bool) (n k : nat) :
  candidate (base_name success) n ≠ candidate (base_name (negb success)) k.
Proof.
  unfold candidate. destruct success; simpl; rewrite !append_cons;
    intros Heq; by injection Heq.
Qed.

End recorder_extras.

(** X13. Two saves in a row, each written successfully, never share a
    name: afterwards the directory holds both files, the first with the
    text it was given. *)
Theorem consecutive_saves_distinct
    (mkdir_error : option exn) (missing_dir_error : exn)
    (a : app) (first second : bool) :
  is_Some (logs_dir a) ∨ mkdir_error = None →
  ∃ nm1 a1 nm2 a2 files,
    save_log mkdir_error None missing_dir_error a first = Some (nm1, a1) ∧
    save_log mkdir_error None missing_dir_error a1 second =
      Some (nm2, a2) ∧
    nm1 ≠ nm2 ∧
    logs_dir a2 = Some files ∧
    files !! nm1 = Some (get_log_text a) ∧
    files !! nm2 = Some (get_log_text a1).
Proof.
  intros Hdir.
  destruct (save_log_effect mkdir_error missing_dir_error a first Hdir)
    as (n1 & files1 & _ & _ & Hs1).
  rewrite Hs1. eexists _, _.
  match goal with |- context [Some (_, ?x)] => set (a1 := x) end.
  destruct (save_log_effect mkdir_error missing_dir_error a1 second)
    as (n2 & files2 & Hf2 & Hfree2 & Hs2); [left; by eexists|].
  simpl in Hf2. injection Hf2 as <-.
  rewrite Hs2. eexists _, _, _. split; [done|]. split; [done|].
  assert (candidate (base_name first) n1 ≠ candidate (base_name second) n2)
    as Hne.
  { intros Heq. apply Hfree2. rewrite <- Heq, dom_insert. set_solver. }
  split; [done|]. simpl. split; [done|]. split.
  - rewrite lookup_insert_ne by done. apply lookup_insert_eq.
  - apply lookup_insert_eq.
Qed.

Lemma consecutive_saves_distinct_witness :
  (is_Some (logs_dir Sample.used_app) ∨ @None exn = None) ∧
  ∃ nm1 a1 nm2 a2 files,
    save_log None None (Exn "FileNotFoundError" "missing")
      Sample.used_app false = Some (nm1, a1) ∧
    save_log None None (Exn "FileNotFoundError" "missing") a1 false =
      Some (nm2, a2) ∧
    nm1 ≠ nm2 ∧
    logs_dir a2 = Some files ∧
    files !! nm1 = Some (get_log_text Sample.used_app) ∧
    files !! nm2 = Some (get_log_text a1).
Proof.
  assert (is_Some (logs_dir Sample.used_app) ∨ @None exn = None) as Hdir
    by (by right).
  split; [exact Hdir|].
  exact (consecutive_saves_distinct None
           (Exn "FileNotFoundError" "missing") Sample.used_app
           false false Hdir).
Defined.

(** X14. A save that cannot write does not raise: it returns the name it
    tried and the log gains one ["Failed to save log: "] line.  When the
    directory is missing and cannot be created the name is the one numbered
    1 and there is still no directory.  When the write into an existing
    directory fails, the name is one that was free, every file already
    there is untouched, and the only file that can appear is the one of
    that name, holding what the failed write left behind (an empty file
    when the file was opened and nothing written; nothing at all when it
    could not be opened). *)
Theorem save_log_failure
    (write_error : option write_failure) (missing_dir_error e : exn)
    (w : write_failure)
    (lines : list string) (calls : list event)
    (files : gmap string string) (success : bool) :
  save_log (Some e) write_error missing_dir_error
    {| log_lines := lines; logs_dir := None; sinks := calls |} success =
  Some (candidate (base_name success) 1,
        log {| log_lines := lines; logs_dir := None; sinks := calls |}
            ("Failed to save log: " +:+ exn_msg missing_dir_error)) ∧
  ∃ n,
    (candidate (base_name success) n ∉ dom files) ∧
    save_log None (Some w) missing_dir_error
      {| log_lines := lines; logs_dir := Some files; sinks := calls |}
      success =
    Some (candidate (base_name success) n,
          log {| log_lines := lines;
                 logs_dir :=
                   Some (match failure_left w with
                         | Some partial =>
                             <[candidate (base_name success) n := partial]>
                               files
                         | None => files
                         end);
                 sinks := calls |}
              ("Failed to save log: " +:+ exn_msg (failure_exn w))).
Proof.
  split; [done|].
  destruct (save_log_scan None
              {| log_lines := lines; logs_dir := Some files;
                 sinks := calls |} success)
    as (n & Hscan & _ & Hfree & _).
  exists n. split.
  - simpl in Hfree. by apply bool_decide_eq_false in Hfree.
  - unfold save_log. rewrite Hscan. done.
Qed.

(** X15. The two outcome classes are numbered independently: a save of one
    class leaves the presence of every file name of the other class as it
    was. *)
Theorem outcome_classes_independent
    (mkdir_error : option exn) (write_error : option write_failure)
    (missing_dir_error : exn)
    (a : app) (success : bool) :
  ∃ nm a',
    save_log mkdir_error write_error missing_dir_error a success =
      Some (nm, a') ∧
    ∀ k, file_exists (logs_dir a') (candidate (base_name (negb success)) k) =
         file_exists (logs_dir a) (candidate (base_name (negb success)) k).
Proof.
  destruct (save_log_scan mkdir_error a success) as (n & Hscan & _).
  unfold save_log. rewrite Hscan. simpl. unfold write_text.
  assert (∀ k text (files : gmap string string),
            bool_decide
              (candidate (base_name (negb success)) k ∈
               dom (<[candidate (base_name success) n := text]> files)) =
            bool_decide
              (candidate (base_name (negb success)) k ∈ dom files))
    as Hins.
  { intros k text files. apply bool_decide_ext. rewrite dom_insert.
    pose proof (candidate_class_ne success n k). set_solver. }
  destruct (ensure_dir mkdir_error (logs_dir a)) as [files|] eqn:Hd.
  - destruct write_error as [[e [partial|]]|];
      eexists _, _; (split; [reflexivity|]); simpl; intros k;
      rewrite <- (file_exists_ensure_dir mkdir_error (logs_dir a)), Hd;
      simpl; by rewrite ?Hins.
  - eexists _, _. split; [reflexivity|]. simpl. intros k.
    by rewrite <- (file_exists_ensure_dir mkdir_error (logs_dir a)), Hd.
Qed.

(** ** The worker's log *)

Lemma deliver_log_lines a evs :
  log_lines (foldl deliver a evs) = log_lines a ++ log_of evs.
Proof.
  revert a. induction evs as [|ev evs IH]; intros a; simpl.
  - by rewrite app_nil_r.
  - rewrite IH. destruct ev; simpl; [|done|done].
    by rewrite <- app_assoc.
Qed.

Section worker_log.

Variable path_name : string → string.
Variable path_suffix : string → string.
Variable percent_ge : Z → Z → Z → bool.
Variable fmt_percent : Z → Z → string.
Variable path_join : string → string → string.
Variable network : nat → item → get_result.
Variable download_dir : string.

Local Abbreviation loop :=
  (batch_loop path_name path_suffix percent_ge fmt_percent path_join
              network download_dir).
Local Abbreviation events :=
  (batch_events path_name path_suffix percent_ge fmt_percent path_join
                network download_dir).

Lemma batch_loop_log count items :
  ∀ a ok seen idx,
    log_lines (loop count (a, ok, seen) idx items).1.1 =
      log_lines a ++ log_of (events count idx items) ∧
    logs_dir (loop count (a, ok, seen) idx items).1.1 = logs_dir a.
Proof.
  induction items as [|selected rest IH]; intros a ok seen idx; simpl.
  - by rewrite app_nil_r.
  - unfold batch_step.
    destruct (transfer _ _ _ _ _ _ _ idx selected) as [evs [|e]]; simpl;
      destruct (IH (foldl deliver
                      (set_status a
                         ("Starting download (" +:+ pretty idx +:+ "/" +:+
                          pretty count +:+ "): " +:+
                          filename_of path_name selected)) evs)
                   ok (seen ++ [selected]) (S idx)) as [Hl Hd];
      destruct (IH (foldl deliver
                      (set_status a
                         ("Starting download (" +:+ pretty idx +:+ "/" +:+
                          pretty count +:+ "): " +:+
                          filename_of path_name selected)) evs)
                   false (seen ++ [selected]) (S idx)) as [Hl' Hd'].
    + rewrite Hl, Hd, deliver_log_lines. simpl.
      rewrite log_of_app, <- app_assoc.
      split; [done|]. by destruct (deliver_sinks (set_status a
        ("Starting download (" +:+ pretty idx +:+ "/" +:+
         pretty count +:+ "): " +:+ filename_of path_name selected)) evs).
    + rewrite Hl', Hd', deliver_log_lines. simpl.
      rewrite log_of_app, <- app_assoc.
      split; [done|]. by destruct (deliver_sinks (set_status a
        ("Starting download (" +:+ pretty idx +:+ "/" +:+
         pretty count +:+ "): " +:+ filename_of path_name selected)) evs).
Qed.

End worker_log.




(** ** The Modrinth client, continued *)

(** X17. On a successful answer the two dependency getters return the
    value stored under their key (["dependencies"], ["projects"]) when the
    body is an object, the empty list when the object lacks the key, and
    the empty list, without raising, when the body is not an object. *)
Theorem dependency_getters_value
    (session_get : string → list (string * string) → reply) :
  (∀ version_id body,
     session_get (BASE_URL +:+ "/version/" +:+ version_id) [] =
       Answers None (inr body) →
     get_version_dependencies session_get version_id =
       Ret (match body with
            | JObj fields => default (JArr []) (assoc fields "dependencies")
            | _ => JArr []
            end)) ∧
  (∀ slug body,
     session_get (BASE_URL +:+ "/project/" +:+ slug +:+ "/dependencies") [] =
       Answers None (inr body) →
     get_project_dependencies session_get slug =
       Ret (match body with
            | JObj fields => default (JArr []) (assoc fields "projects")
            | _ => JArr []
            end)).
Proof.
  split.
  - intros version_id body Hget.
    unfold get_version_dependencies, fetch. rewrite Hget.
    by destruct body.
  - intros slug body Hget.
    unfold get_project_dependencies, fetch. rewrite Hget.
    by destruct body.
Qed.

Lemma dependency_getters_value_witness :
  Replies.always Replies.version_object
    (BASE_URL +:+ "/version/" +:+ "v2") [] =
    Answers None (inr Replies.version_object) ∧
  get_version_dependencies (Replies.always Replies.version_object) "v2" =
    Ret (JArr [JStr "fabric-api"]).
Proof.
  assert (Replies.always Replies.version_object
            (BASE_URL +:+ "/version/" +:+ "v2") [] =
          Answers None (inr Replies.version_object)) as Hget
    by reflexivity.
  split; [exact Hget|].
  exact (proj1 (dependency_getters_value
                  (Replies.always Replies.version_object))
               "v2" Replies.version_object Hget).
Defined.

(** X18. [resolve_latest_valid_version] raises exactly when [get_versions]
    returns a truthy value that cannot be indexed by 0: a non-empty object,
    a non-zero number or [True].  On every list, string or falsy value it
    returns. *)
Theorem resolve_raises_exactly
    (session_get : string → list (string * string) → reply)
    (str_list : list string → string)
    (slug : string) (loaders game_versions : list string) (v : json) :
  get_versions session_get str_list slug (Some loaders)
    (Some game_versions) = Ret v →
  (∃ e, resolve_latest_valid_version session_get str_list slug loaders
          game_versions = Err e) ↔ unsubscriptable v.
Proof.
  intros Hv. unfold resolve_latest_valid_version. rewrite Hv.
  destruct v as [|b|z|s|l|fields]; simpl.
  - split; [by intros [? ?] | done].
  - destruct b; simpl; split; eauto; try done. by intros [? ?].
  - destruct (Z.eqb_spec z 0) as [->|Hz]; simpl.
    + split; [by intros [? ?] | done].
    + split; eauto.
  - destruct s; simpl; (split; [by intros [? ?] | done]).
  - destruct l; simpl; (split; [by intros [? ?] | done]).
  - destruct fields; simpl; [split; [by intros [? ?] | done]|].
    split; eauto.
Qed.

Lemma resolve_raises_exactly_witness :
  get_versions (Replies.always Replies.error_object) (λ _, "[]") "sodium"
    (Some ["fabric"]) (Some ["1.21"]) = Ret Replies.error_object ∧
  ((∃ e, resolve_latest_valid_version
           (Replies.always Replies.error_object) (λ _, "[]") "sodium"
           ["fabric"] ["1.21"] = Err e) ↔
   unsubscriptable Replies.error_object).
Proof.
  assert (get_versions (Replies.always Replies.error_object) (λ _, "[]")
            "sodium" (Some ["fabric"]) (Some ["1.21"]) =
          Ret Replies.error_object) as Hv by reflexivity.
  split; [exact Hv|].
  exact (resolve_raises_exactly (Replies.always Replies.error_object)
           (λ _, "[]") "sodium" ["fabric"] ["1.21"]
           Replies.error_object Hv).
Defined.


(** X19. The quote replacement used for the query parameters keeps the
    length of the text, leaves no single quote in it, and leaves a text
    without single quotes as it is. *)
Theorem replace_quotes_spec (s : string) :
  String.length (replace_quotes s) = String.length s ∧
  occurs single_quote (replace_quotes s) = false ∧
  (occurs single_quote s = false → replace_quotes s = s).
Proof.
  induction s as [|c s (IHlen & IHocc & IHid)]; [done|].
  cbn [replace_quotes occurs String.length]. split_and!.
  - by rewrite IHlen.
  - rewrite IHocc, orb_false_r. case_decide as Hc.
    + reflexivity.
    + apply Ascii.eqb_neq. congruence.
  - intros [Hc Hs]%orb_false_iff. rewrite IHid by done.
    rewrite decide_False; [done|].
    apply Ascii.eqb_neq in Hc. congruence.
Qed.

(** ** Configuration *)

Lemma assoc_app (f1 f2 : list (string * json)) (k : string) :
  assoc (f1 ++ f2) k =
  match assoc f1 k with Some v => Some v | None => assoc f2 k end.
Proof.
  induction f1 as [|[k' v'] f1 IH]; simpl; [done|].
  by case_decide.
Qed.

Lemma assoc_set_default (key : string) (value : json)
    (cfg : list (string * json)) (k : string) :
  assoc (set_default key value cfg) k =
  match assoc cfg k with
  | Some v => Some v
  | None => if decide (key = k) then Some value else None
  end.
Proof.
  unfold set_default. destruct (assoc cfg key) as [v0|] eqn:Hkey.
  - destruct (assoc cfg k) eqn:Hk; [done|].
    rewrite decide_False; [done|]. intros ->. congruence.
  - rewrite assoc_app. destruct (assoc cfg k); [done|]. simpl.
    by case_decide.
Qed.


(** X21. When the file is absent, unreadable, blank, not valid JSON, or
    valid JSON that is not an object, [load_config] does not raise and
    returns exactly the four defaults. *)
Theorem load_config_fallback
    (blank : string → bool) (json_loads : string → exn + json) :
  load_config blank json_loads ConfigAbsent = config_defaults ∧
  (∀ e, load_config blank json_loads (ConfigUnreadable e) =
        config_defaults) ∧
  (∀ text,
     blank text = true ∨
     (∃ e, json_loads text = inl e) ∨
     (∃ v, json_loads text = inr v ∧ is_object v = false) →
     load_config blank json_loads (ConfigText text) = config_defaults).
Proof.
  split; [done|]. split; [done|].
  intros text Hbad.
  assert (read_config blank json_loads (ConfigText text) = []) as Hread.
  { unfold read_config. destruct (blank text); [done|].
    destruct Hbad as [?|[[e ->]|(v & -> & Hv)]]; [done|done|].
    by destruct v. }
  unfold load_config. by rewrite Hread.
Qed.

Lemma load_config_fallback_witness :
  ((λ _ : string, false) "[1, 2]" = true ∨
   (∃ e, (λ _ : string, @inr exn json (JArr [JNum 1; JNum 2])) "[1, 2]"
         = inl e) ∨
   (∃ v, (λ _ : string, @inr exn json (JArr [JNum 1; JNum 2])) "[1, 2]"
         = inr v ∧ is_object v = false)) ∧
  load_config (λ _, false) (λ _, inr (JArr [JNum 1; JNum 2]))
    (ConfigText "[1, 2]") = config_defaults.
Proof.
  assert ((λ _ : string, false) "[1, 2]" = true ∨
          (∃ e, (λ _ : string, @inr exn json (JArr [JNum 1; JNum 2]))
                  "[1, 2]" = inl e) ∨
          (∃ v, (λ _ : string, @inr exn json (JArr [JNum 1; JNum 2]))
                  "[1, 2]" = inr v ∧ is_object v = false)) as Hbad.
  { right. right. by eexists. }
  split; [exact Hbad|].
  exact (proj2 (proj2 (load_config_fallback (λ _, false)
                         (λ _, inr (JArr [JNum 1; JNum 2]))))
               "[1, 2]" Hbad).
Defined.

(** ** The gate of [start_download] *)

Section start_facts.

Variable download_items : list item.
Variable deps_map : gmap string (list string).
Variable confirm : list string → option choice.

Local Abbreviation begin :=
  (start_download download_items deps_map confirm).

Lemma start_download_total online download_dir selected_items :
  ∃ res, begin online download_dir selected_items = Some res.
Proof.
  unfold start_download. destruct online; simpl; [|eauto].
  destruct download_dir; [|eauto]. destruct selected_items; [eauto|].
  destruct (items_to_download _ _) as [|first others]; [eauto|].
  destruct (confirm _) as [[|]|]; eauto.
  destruct (traverse_total download_items deps_map (first :: others))
    as [st ->]. simpl. eauto.
Qed.

Lemma start_download_started online download_dir selected_items
    notice batch :
  begin online download_dir selected_items = Some (Started notice batch) →
  online = true ∧ is_Some download_dir ∧
  batch ≠ [] ∧
  items_to_download download_items selected_items `prefix_of` batch ∧
  (∀ it, it ∈ batch → it ∈ download_items) ∧
  (notice = None ↔
   batch = items_to_download download_items selected_items).
Proof.
  unfold start_download. destruct online; simpl; [|done].
  destruct download_dir as [dir|]; [|done].
  destruct selected_items as [|s sel]; [done|].
  destruct (items_to_download download_items (s :: sel))
    as [|first others] eqn:Hitems; [done|].
  assert (∀ it, it ∈ first :: others → it ∈ download_items) as Hcat.
  { intros it Hit. rewrite <- Hitems in Hit.
    by eapply items_to_download_catalog. }
  destruct (confirm _) as [[|]|]; [| |done].
  - intros [= <- <-]. split_and!; try done; by eexists.
  - destruct (traverse_invariant download_items deps_map
                (first :: others))
      as (st & Hst & (_ & _ & _ & Hres & _) & _).
    rewrite Hst. simpl. intros [= <- <-].
    rewrite extend_with_app. split_and!.
    + done.
    + by eexists.
    + done.
    + by apply prefix_app_r.
    + intros it [Hit|Hit]%elem_of_app; [by apply Hcat|].
      rewrite Forall_forall in Hres.
      by destruct (find_in_Some _ _ _ (Hres it Hit)).
    + destruct (extra_items st); [by rewrite app_nil_r|].
      split; [done|]. intros Heq.
      apply (f_equal length) in Heq. rewrite length_app in Heq.
      simpl in Heq. lia.
Qed.

End start_facts.

(** X22. [start_download] always ends in an alert, a cancellation or a
    started batch.  A batch is started only when the connectivity check
    succeeded and a folder is chosen; it is never empty, holds catalog
    entries only, begins with the confirmed list, and comes with the
    information dialog exactly when dependencies were added.  A non-empty
    selection none of whose names is in the catalog ends in the alert
    ["No matching downloads found."]. *)
Theorem start_download_gate
    (download_items : list item) (deps_map : gmap string (list string))
    (confirm : list string → option choice)
    (online : bool) (download_dir : option string)
    (selected_items : list string) :
  ∃ res,
    start_download download_items deps_map confirm online download_dir
      selected_items = Some res ∧
    (∀ notice batch, res = Started notice batch →
       online = true ∧ is_Some download_dir ∧
       batch ≠ [] ∧
       items_to_download download_items selected_items `prefix_of` batch ∧
       (∀ it, it ∈ batch → it ∈ download_items) ∧
       (notice = None ↔
        batch = items_to_download download_items selected_items)) ∧
    (online = true → is_Some download_dir → selected_items ≠ [] →
     (∀ n, n ∈ selected_items → n ∉ names download_items) →
     res = Alert "Error" "No matching downloads found.").
Proof.
  destruct (start_download_total download_items deps_map confirm online
              download_dir selected_items) as [res Hres].
  exists res. split; [done|]. split.
  - intros notice batch ->.
    by apply (start_download_started download_items deps_map confirm).
  - intros -> [dir ->] Hsel Hnone. revert Hres. unfold start_download.
    simpl. destruct selected_items as [|s sel]; [done|].
    assert (items_to_download download_items (s :: sel) = []) as ->.
    { destruct (items_to_download download_items (s :: sel))
        as [|it rest] eqn:Hitems; [done|].
      assert (it ∈ items_to_download download_items (s :: sel)) as Hit
        by (rewrite Hitems; left).
      apply list_elem_of_filter in Hit as [Hname Hit].
      destruct (Hnone _ Hname). apply list_elem_of_fmap. eauto. }
    by intros [= <-].
Qed.

(** ** The update check *)

Lemma find_asset_skip (pre rest : list json) :
  Forall (λ a, is_object a = true ∧ is_app_asset a = false) pre →
  find_asset (pre ++ rest) = find_asset rest.
Proof.
  induction pre as [|a pre IH]; [done|].
  intros [[Hobj Happ] Hpre]%Forall_cons. simpl.
  destruct a as [| | | | |fields]; try done. simpl in *.
  destruct (assoc fields "name") as [[| | |s| |]|]; simpl; try by apply IH.
  case_decide as Hs; [|by apply IH].
  by rewrite bool_decide_eq_false in Happ.
Qed.

(** X23. The download URL of a release is taken from the first asset named
    [app.py]: assets before it are passed over, assets after it are not
    looked at; with no such asset the URL is the empty string; and an
    element that is not an object, met before any match, makes the search
    raise. *)
Theorem first_app_asset (pre post : list json) (asset : json) :
  Forall (λ a, is_object a = true ∧ is_app_asset a = false) pre →
  (is_app_asset asset = true →
   find_asset (pre ++ asset :: post) =
     dict_get asset "browser_download_url" JNull) ∧
  find_asset pre = inr (JStr EmptyString) ∧
  (is_object asset = false →
   ∃ e, find_asset (pre ++ asset :: post) = inl e).
Proof.
  intros Hpre. split_and!.
  - intros Happ. rewrite find_asset_skip by done. simpl.
    destruct asset as [| | | | |fields]; try done. simpl in *.
    destruct (assoc fields "name") as [[| | |s| |]|]; try done.
    simpl. apply bool_decide_eq_true in Happ. by rewrite decide_True.
  - rewrite <- (app_nil_r pre). by rewrite find_asset_skip.
  - intros Hobj. rewrite find_asset_skip by done. simpl.
    destruct asset; try done; simpl; eauto.
Qed.

Lemma first_app_asset_witness :
  Forall (λ a, is_object a = true ∧ is_app_asset a = false)
         [Release.notes] ∧
  is_app_asset Release.script = true ∧
  find_asset ([Release.notes] ++ Release.script :: []) =
    inr (JStr "https://example.org/app.py").
Proof.
  assert (Forall (λ a, is_object a = true ∧ is_app_asset a = false)
                 [Release.notes]) as Hpre.
  { apply Forall_singleton. split; reflexivity. }
  assert (is_app_asset Release.script = true) as Happ by reflexivity.
  split; [exact Hpre|]. split; [exact Happ|].
  exact (proj1 (first_app_asset [Release.notes] [] Release.script Hpre)
               Happ).
Defined.

Section update_facts.

Variable strip : string → string.
Variable repr : json → string.
Variable requests_get : string → reply.

Local Abbreviation check := (check_update_worker strip repr requests_get).
Local Abbreviation try_check := (check_update_try strip repr requests_get).

Lemma check_update_offer config_data latest download_url :
  check config_data = UpdateAvailable latest download_url →
  latest ≠ EmptyString ∧
  latest ≠ py_str repr (default (JStr "1.0.0")
                                (assoc config_data "version")) ∧
  strip (py_str repr (default (JStr EmptyString)
                              (assoc config_data "check_update_url")))
    ≠ EmptyString.
Proof.
  unfold check_update_worker, check_update_try.
  case_decide as Hu; [done|].
  destruct (requests_get _) as [e|[e|] [e'|data]]; try done.
  unfold and_then.
  destruct (dict_get data "tag_name" JNull) as [e|tag_name]; [done|].
  destruct (dict_get data "name" JNull) as [e|name]; [done|].
  destruct (dict_get data "assets" (JArr [])) as [e|assets]; [done|].
  destruct (py_iter assets) as [e|elements]; [done|].
  destruct (find_asset elements) as [e|url]; [done|].
  case_decide as Hnew; [|done].
  intros [= <- <-]. by destruct Hnew.
Qed.

Lemma check_update_unconfigured config_data :
  strip EmptyString = EmptyString →
  assoc config_data "check_update_url" = None →
  check config_data = CannotCheck "No update URL configured".
Proof.
  intros Hstrip Hkey. unfold check_update_worker, check_update_try.
  rewrite Hkey. simpl. by rewrite Hstrip.
Qed.

End update_facts.

(** X24. The update check offers an update only for a version that is not
    the configured one: whenever it reports [UpdateAvailable], the latest
    tag is not empty and differs, as text, from the configured version, and
    an update URL was configured. *)
Theorem update_offer_is_new
    (strip : string → string) (repr : json → string)
    (requests_get : string → reply)
    (config_data : list (string * json))
    (latest : string) (download_url : json) :
  check_update_worker strip repr requests_get config_data =
    UpdateAvailable latest download_url →
  latest ≠ EmptyString ∧
  latest ≠ py_str repr (default (JStr "1.0.0")
                                (assoc config_data "version")) ∧
  strip (py_str repr (default (JStr EmptyString)
                              (assoc config_data "check_update_url")))
    ≠ EmptyString.
Proof. apply check_update_offer. Qed.

Lemma update_offer_is_new_witness :
  check_update_worker Sample.plain Release.show Release.github
    Release.config =
    UpdateAvailable "1.1.0" (JStr "https://example.org/app.py") ∧
  "1.1.0" ≠ EmptyString ∧
  "1.1.0" ≠ py_str Release.show
              (default (JStr "1.0.0") (assoc Release.config "version")) ∧
  Sample.plain
    (py_str Release.show
       (default (JStr EmptyString)
                (assoc Release.config "check_update_url"))) ≠ EmptyString.
Proof.
  assert (check_update_worker Sample.plain Release.show Release.github
            Release.config =
          UpdateAvailable "1.1.0" (JStr "https://example.org/app.py"))
    as Hcheck by reflexivity.
  split; [exact Hcheck|].
  exact (update_offer_is_new Sample.plain Release.show Release.github
           Release.config "1.1.0" (JStr "https://example.org/app.py")
           Hcheck).
Defined.

(** X25. [load_config] supplies no default for [check_update_url], so with
    a configuration file that lacks the key (or no file at all) the update
    check of the settings window ends in the error
    ["No update URL configured"], whatever the network would answer. *)
Theorem update_check_needs_url
    (strip : string → string) (repr : json → string)
    (requests_get : string → reply)
    (blank : string → bool) (json_loads : string → exn + json)
    (f : config_file) :
  strip EmptyString = EmptyString →
  assoc (read_config blank json_loads f) "check_update_url" = None →
  check_update_worker strip repr requests_get
    (load_config blank json_loads f) =
  CannotCheck "No update URL configured".
Proof.
  intros Hstrip Hkey. apply check_update_unconfigured; [done|].
  unfold load_config. rewrite !assoc_set_default, Hkey. done.
Qed.

Lemma update_check_needs_url_witness :
  Sample.plain EmptyString = EmptyString ∧
  assoc (read_config (λ _, false) (λ _, inr JNull) ConfigAbsent)
        "check_update_url" = None ∧
  check_update_worker Sample.plain Release.show Release.github
    (load_config (λ _, false) (λ _, inr JNull) ConfigAbsent) =
  CannotCheck "No update URL configured".
Proof.
  assert (Sample.plain EmptyString = EmptyString) as Hstrip by reflexivity.
  assert (assoc (read_config (λ _, false) (λ _, inr JNull) ConfigAbsent)
                "check_update_url" = None) as Hkey by reflexivity.
  split; [exact Hstrip|]. split; [exact Hkey|].
  exact (update_check_needs_url Sample.plain Release.show Release.github
           (λ _, false) (λ _, inr JNull) ConfigAbsent Hstrip Hkey).
Defined.

(** ** The order of the expansion result *)

Section catalog_order_facts.

Variable download_items : list item.
Variable deps_map : gmap string (list string).

Lemma find_in_first (l : list item) (n : string) (it : item) :
  find_in l n = Some it →
  ∃ pre post, l = pre ++ it :: post ∧ name it ∉ names pre.
Proof.
  induction l as [|x l IH]; simpl; [done|].
  case_decide as Hx.
  - intros [= ->]. exists [], l. split; [done|]. apply not_elem_of_nil.
  - intros Hf. destruct (find_in_Some _ _ _ Hf) as [_ Hn].
    destruct (IH Hf) as (pre & post & -> & Hpre).
    exists (x :: pre), post. split; [done|].
    unfold names. rewrite fmap_cons. apply not_elem_of_cons.
    split; [congruence | done].
Qed.

Lemma next_level_level_after seen frontier :
  next_level download_items deps_map seen frontier =
  level_after download_items deps_map seen frontier.
Proof.
  unfold next_level, level_after. f_equal. apply list_filter_iff.
  intros n. unfold discoverable, new_in_catalog.
  by rewrite (find_is_Some download_items).
Qed.

Lemma discovery_breadth_first seen frontier later :
  discovery download_items deps_map seen frontier later →
  breadth_first download_items deps_map seen frontier later.
Proof.
  induction 1 as [seen|seen frontier later Hne _ IH]; [constructor|].
  rewrite next_level_level_after in *. by constructor.
Qed.

End catalog_order_facts.

(** C4, as stated, fails: the requested items do not come in the order
    supplied by the caller.  With the catalog [A; B; C], no dependencies and
    the selection C, A, the result is A, C: the selection is resolved by
    filtering the catalog, so its items come in catalog order. *)
Lemma requested_order_not_kept :
  names <$> expand Sample.catalog ∅ ["C"; "A"] = Some ["A"; "C"] ∧
  ["A"; "C"] ≠ ["C"; "A"].
Proof. split; [vm_compute; reflexivity | discriminate]. Qed.

(** C4, amended.  For every selection, catalog and dependency map, the
    expansion result is the catalog entries whose name is selected, in
    catalog order (a sublist of the catalog, whatever the order of the
    selection), followed by the extra items; each extra item is the first
    catalog entry of its name, and the extras come in breadth-first
    first-discovery order: level after level, each level listing by first
    occurrence the catalog names not seen before among the dependencies of
    the previous level. *)
Theorem expansion_in_catalog_order
    (download_items : list item) (deps_map : gmap string (list string))
    (selected_items : list string) :
  ∃ head extras,
    expand download_items deps_map selected_items = Some (head ++ extras) ∧
    head `sublist_of` download_items ∧
    (∀ it, it ∈ head ↔ it ∈ download_items ∧ name it ∈ selected_items) ∧
    Forall (first_of_name download_items) extras ∧
    breadth_first download_items deps_map
      (list_to_set (names head)) (names head) (names extras).
Proof.
  destruct (resolve_discovery_order download_items deps_map
              (items_to_download download_items selected_items))
    as (extras & Hr & Hres & Hdisc).
  exists (items_to_download download_items selected_items), extras.
  split; [done|]. unfold items_to_download at 1 2. split_and!.
  - apply sublist_filter.
  - intros it. rewrite list_elem_of_filter. tauto.
  - eapply Forall_impl; [exact Hres|]. intros it Hit.
    by apply find_in_first in Hit.
  - by apply discovery_breadth_first.
Qed.

(** Indexing and iterating a text go by characters, not bytes: the text
    of the two characters e-acute (bytes 195, 169) and [x]. *)
Example characters_of_text :
  py_chars (String "195"%char (String "169"%char "x")) =
    [String "195"%char (String "169"%char EmptyString); "x"] ∧
  subscript_0 (JStr (String "195"%char (String "169"%char "x"))) =
    Ret (JStr (String "195"%char (String "169"%char EmptyString))).
Proof. split; reflexivity. Qed.
